(** * The snake game state engine ([snake_game/logic.py])

    A shallow embedding of the pure state-transition core of the game:
    the board, the snake body, food spawning, the multi-life collision
    handling with respawn, and the board-filled win.

    Python integers are unbounded, so coordinates, sizes, score and lives
    are [Z].  A point or a direction is a pair of integers, as in the
    source ([Tuple[int, int]]).  The random source is an object with one
    method [choice]; it is modelled as a state machine over an abstract
    state [R], and every engine function that draws from it is a
    computation in a state-and-exception monad over [R]. *)

From Stdlib Require Import String ZArith List Bool Lia.
From Stdlib Require Finite.
Import ListNotations.
Open Scope Z_scope.

(** ** Exceptions and the monad of engine computations *)

(** The two [ValueError]s of the engine differ only by their message;
    [IndexError] is what [state.snake[0]] raises on an empty list and what
    [Random.choice] raises on an empty sequence. *)
Inductive exn : Type :=
| ValueError (msg : string)
| IndexError.

Definition InvalidBoardError : exn :=
  ValueError "Board must be at least 4x4."%string.

Definition BoardFullError : exn :=
  ValueError "No space left to spawn food."%string.

(** A computation reads and advances the random source's state and
    either raises or returns. *)
Definition M (R A : Type) : Type := R -> exn + (A * R).

Definition ret {R A : Type} (a : A) : M R A := fun r => inr (a, r).

Definition raise {R A : Type} (e : exn) : M R A := fun _ => inl e.

Definition bind {R A B : Type} (c : M R A) (k : A -> M R B) : M R B :=
  fun r => match c r with
           | inl e => inl e
           | inr (a, r') => k a r'
           end.

Notation "x <- c ;; k" := (bind c (fun x => k))
  (at level 61, c at next level, right associativity).

(** ** Data model *)

Definition Point : Type := Z * Z.
Definition Direction : Type := Z * Z.

(** [class SupportsChoice(Protocol)]: [choice(seq)] picks from a sequence.
    The engine calls it on a list of integers, on a list of points and on
    a list holding the list of directions, hence the polymorphic method. *)
Class SupportsChoice (R : Type) : Type :=
  choice : forall {A : Type}, list A -> M R A.

Record GameState : Type := mkGameState {
  width : Z;
  height : Z;
  snake : list Point;
  food : Point;
  direction : Direction;
  score : Z;
  game_over : bool;
  lives : Z;
  max_lives : Z
}.

Definition UP : Direction := (0, -1).
Definition DOWN : Direction := (0, 1).
Definition LEFT : Direction := (-1, 0).
Definition RIGHT : Direction := (1, 0).

(** Tuple equality [p == q] and list membership [p in snake]. *)
Definition point_eqb (p q : Point) : bool :=
  (fst p =? fst q) && (snd p =? snd q).

Definition mem (p : Point) (l : list Point) : bool :=
  existsb (point_eqb p) l.

(** [list(range(n))]; empty when [n <= 0]. *)
Definition range (n : Z) : list Z :=
  map Z.of_nat (seq 0 (Z.to_nat n)).

(** [len(snake)] *)
Definition len {A : Type} (l : list A) : Z := Z.of_nat (length l).

(** ** Pure helpers *)

Definition _initial_snake (width height : Z) : list Point :=
  let center := (width / 2, height / 2) in
  [center; (fst center - 1, snd center); (fst center - 2, snd center)].

Definition _direction_from_snake (snake : list Point) : Direction :=
  match snake with
  | p0 :: p1 :: _ => (fst p0 - fst p1, snd p0 - snd p1)
  | _ => RIGHT
  end.

Definition update_direction (current requested : Direction) : Direction :=
  if point_eqb requested (- fst current, - snd current) then current
  else requested.

(** Board cells in the order of the comprehension of [spawn_food]
    ([for y ... for x ...]) and of the fallback of [_respawn_snake]
    ([for x ... for y ...]). *)
Definition cells_by_row (width height : Z) : list Point :=
  flat_map (fun y => map (fun x => (x, y)) (range width)) (range height).

Definition cells_by_column (width height : Z) : list Point :=
  flat_map (fun x => map (fun y => (x, y)) (range height)) (range width).

Definition free (snake : list Point) (cells : list Point) : list Point :=
  filter (fun p => negb (mem p snake)) cells.

(** The four extension offsets of [_respawn_snake], in source order. *)
Definition directions : list Direction := [(1, 0); (-1, 0); (0, 1); (0, -1)].

(** [next_head] outside [[0,width) x [0,height)]: the wall test of
    [step_state]. *)
Definition off_board (width height : Z) (p : Point) : bool :=
  (fst p <? 0) || (fst p >=? width) || (snd p <? 0) || (snd p >=? height).

(** The inner [for dx, dy in ...] of [_respawn_snake]: the first offset,
    in the order of the list iterated, that leads from the last segment
    to an in-bounds cell not in the snake; [None] is the loop's [else].
    The snake starts as a singleton and only grows, so [snake[-1]]
    always exists. *)
Fixpoint try_extend (width height : Z) (snake : list Point)
         (ds : list Direction) : option Point :=
  match ds with
  | [] => None
  | (dx, dy) :: ds' =>
      let next_x := fst (last snake (0, 0)) + dx in
      let next_y := snd (last snake (0, 0)) + dy in
      if (0 <=? next_x) && (next_x <? width) && (0 <=? next_y)
         && (next_y <? height) && negb (mem (next_x, next_y) snake)
      then Some (next_x, next_y)
      else try_extend width height snake ds'
  end.

(** The direction and head that one tick of [step_state] works with. *)
Definition resolve_direction (state : GameState)
           (requested_direction : option Direction) : Direction :=
  match requested_direction with
  | Some requested => update_direction (direction state) requested
  | None => direction state
  end.

Definition advance (head : Point) (d : Direction) : Point :=
  (fst head + fst d, snd head + snd d).

Definition body_for_collision (state : GameState) (next_head : Point)
  : list Point :=
  if point_eqb next_head (food state) then snake state
  else removelast (snake state).

(** The state handed to [_after_collision]: the input with the resolved
    direction recorded. *)
Definition with_direction (state : GameState) (d : Direction) : GameState :=
  mkGameState (width state) (height state) (snake state) (food state) d
              (score state) (game_over state) (lives state) (max_lives state).

(** A point of the board: [0 <= x < width] and [0 <= y < height]. *)
Definition on_board (w h : Z) (p : Point) : Prop :=
  0 <= fst p < w /\ 0 <= snd p < h.

(** ** Collisions and well-formed states *)

(** The exact reverse of a direction, as [update_direction] computes it. *)
Definition reverse (d : Direction) : Direction := (- fst d, - snd d).

(** The two tests of [step_state] that route to [_after_collision]:
    the next head is off the board, or it is on the board and in the
    comparison body. *)
Definition collides (state : GameState) (req : option Direction) : bool :=
  match snake state with
  | [] => false
  | head :: _ =>
      let next_head := advance head (resolve_direction state req) in
      off_board (width state) (height state) next_head
      || mem next_head (body_for_collision state next_head)
  end.

(** The invariants of the data model that the engine maintains. *)
Record valid (s : GameState) : Prop := mkValid {
  valid_width : 4 <= width s;
  valid_height : 4 <= height s;
  valid_nonempty : snake s <> [];
  valid_nodup : NoDup (snake s);
  valid_on_board : Forall (on_board (width s) (height s)) (snake s);
  valid_food :
    In (food s) (snake s) ->
    game_over s = true /\ len (snake s) = width s * height s;
  valid_room : game_over s = false -> len (snake s) < width s * height s
}.

(** ** The engine, over an arbitrary random source *)

(** Every function takes [rng: Optional[SupportsChoice]] and falls back to
    a fresh [random.Random()] when it is [None]; here the source is always
    supplied, the fallback being one more source of the same kind. *)
Section Engine.

Context {R : Type} {rng : SupportsChoice R}.

(** The outer [for _ in range(n)] of [_respawn_snake]. *)
Fixpoint respawn_loop (n : nat) (width height : Z) (snake : list Point)
  : M R (list Point) :=
  match n with
  | O => ret snake
  | S n' =>
      ds <- choice [directions] ;;
      match try_extend width height snake ds with
      | Some p => respawn_loop n' width height (snake ++ [p])
      | None =>
          match free snake (cells_by_column width height) with
          | [] => ret snake
          | available =>
              p <- choice available ;;
              respawn_loop n' width height (snake ++ [p])
          end
      end
  end.

Definition _respawn_snake (width height length : Z) : M R (list Point) :=
  start_x <- choice (range width) ;;
  start_y <- choice (range height) ;;
  respawn_loop (Z.to_nat (Z.min (length - 1) (width * height - 1)))
               width height [(start_x, start_y)].

Definition spawn_food (snake : list Point) (width height : Z) : M R Point :=
  match free snake (cells_by_row width height) with
  | [] => raise BoardFullError
  | available => choice available
  end.

Definition create_initial_state (width height : Z) : M R GameState :=
  if (width <? 4) || (height <? 4) then raise InvalidBoardError
  else
    let snake := _initial_snake width height in
    food <- spawn_food snake width height ;;
    ret (mkGameState width height snake food RIGHT 0 false 3 3).

(** [create_initial_state()] with the default [width=20, height=20]. *)
Definition create_initial_state_default : M R GameState :=
  create_initial_state 20 20.

Definition _after_collision (state : GameState) : M R GameState :=
  let next_lives := lives state - 1 in
  if next_lives <=? 0 then
    ret (mkGameState (width state) (height state) (snake state)
                     (food state) (direction state) (score state)
                     true 0 (max_lives state))
  else
    next_snake <- _respawn_snake (width state) (height state)
                                 (len (snake state)) ;;
    next_food <- spawn_food next_snake (width state) (height state) ;;
    ret (mkGameState (width state) (height state) next_snake next_food
                     (_direction_from_snake next_snake) (score state)
                     false next_lives (max_lives state)).

Definition step_state (state : GameState)
           (requested_direction : option Direction) : M R GameState :=
  if game_over state then ret state
  else
    let direction := resolve_direction state requested_direction in
    match snake state with
    | [] => raise IndexError
    | head :: _ =>
        let next_head := advance head direction in
        if off_board (width state) (height state) next_head then
          _after_collision (with_direction state direction)
        else
          let grow := point_eqb next_head (food state) in
          if mem next_head (body_for_collision state next_head) then
            _after_collision (with_direction state direction)
          else
            let next_snake := next_head :: snake state in
            if grow then
              let next_score := score state + 1 in
              if len next_snake =? width state * height state then
                ret (mkGameState (width state) (height state) next_snake
                                 (food state) direction next_score
                                 true (lives state) (max_lives state))
              else
                next_food <- spawn_food next_snake (width state)
                                        (height state) ;;
                ret (mkGameState (width state) (height state) next_snake
                                 next_food direction next_score
                                 false (lives state) (max_lives state))
            else
              ret (mkGameState (width state) (height state)
                               (removelast next_snake) (food state)
                               direction (score state)
                               false (lives state) (max_lives state))
    end.

(** Several ticks in a row, each with its own requested direction. *)
Fixpoint run (state : GameState) (reqs : list (option Direction))
  : M R GameState :=
  match reqs with
  | [] => ret state
  | req :: reqs' => s' <- step_state state req ;; run s' reqs'
  end.

(** The states a game can be in: the result of [create_initial_state],
    and the result of any tick from such a state, whatever the requested
    direction and the state of the random source at each call. *)
Inductive reachable : GameState -> Prop :=
| reachable_init (w h : Z) (r r' : R) (s : GameState) :
    create_initial_state w h r = inr (s, r') -> reachable s
| reachable_step (s s' : GameState) (req : option Direction) (r r' : R) :
    reachable s -> step_state s req r = inr (s', r') -> reachable s'.

End Engine.

(** ** Well-behaved random sources *)

(** [choice] returns an element of the sequence it is given (and does
    return, whenever the sequence is not empty). *)
Definition returns_member {R : Type} (rng : SupportsChoice R) : Prop :=
  forall (A : Type) (seq : list A) (r : R),
    seq <> [] -> exists x r', choice seq r = inr (x, r') /\ In x seq.

(** ** A scripted random source

    The state is the list of indices still to be played; [choice] returns
    the element at the next index (modulo the length, and index 0 once
    the script is used up), and raises on an empty sequence as
    [random.Random.choice] does. *)
Definition Script : Type := list nat.

#[export] Instance script_choice : SupportsChoice Script :=
  fun A seq r =>
    match seq with
    | [] => inl IndexError
    | d :: _ => inr (nth (Nat.modulo (hd 0%nat r) (length seq)) seq d, tl r)
    end.

(** ** Concrete games on a 4 x 4 board *)

(** The initial state when the source places the food at [(2, 1)]. *)
Definition start_4x4 : GameState :=
  mkGameState 4 4 [(2, 2); (1, 2); (0, 2)] (2, 1) RIGHT 0 false 3 3.

(** A game that eats on every tick along a path covering the board. *)
Definition winning_requests : list (option Direction) :=
  [Some UP; Some LEFT; Some LEFT; Some UP; Some RIGHT; Some RIGHT;
   Some RIGHT; Some DOWN; Some DOWN; Some DOWN; Some LEFT; Some LEFT].

Definition winning_script : Script :=
  [5; 4; 0; 0; 0; 0; 0; 0; 3; 2; 1; 0]%nat.

Definition almost_won_4x4 : GameState :=
  mkGameState 4 4
    [(1, 3); (2, 3); (3, 3); (3, 2); (3, 1); (3, 0); (2, 0); (1, 0);
     (0, 0); (0, 1); (1, 1); (2, 1); (2, 2); (1, 2); (0, 2)]
    (0, 3) LEFT 12 false 3 3.

Definition won_4x4 : GameState :=
  mkGameState 4 4
    [(0, 3); (1, 3); (2, 3); (3, 3); (3, 2); (3, 1); (3, 0); (2, 0);
     (1, 0); (0, 0); (0, 1); (1, 1); (2, 1); (2, 2); (1, 2); (0, 2)]
    (0, 3) LEFT 13 true 3 3.

(** A game that runs straight into the right wall. *)
Definition start_4x4_corner_food : GameState :=
  mkGameState 4 4 [(2, 2); (1, 2); (0, 2)] (0, 0) RIGHT 0 false 3 3.

Definition before_wall_4x4 : GameState :=
  mkGameState 4 4 [(3, 2); (2, 2); (1, 2)] (0, 0) RIGHT 0 false 3 3.

Definition after_wall_4x4 : GameState :=
  mkGameState 4 4 [(0, 0); (1, 0); (2, 0)] (3, 0) LEFT 0 false 2 3.


(** The loop of the self-collision test: facing down into its own body. *)
Definition loop_8x8 : GameState :=
  mkGameState 8 8 [(3, 3); (3, 4); (4, 4); (4, 3)] (7, 7) DOWN 0 false 1 3.


(** ** Board sizing and game creation of the terminal front end
    ([snake_game/cli.py]) *)

Definition CELL_WIDTH : Z := 3.
Definition MIN_BOARD_SIZE : Z := 4.
Definition MAX_BOARD_SIZE : Z := 48.

Definition compute_board_size (term_rows term_cols : Z) : Z :=
  let usable_rows := Z.max (term_rows - 3) 0 in
  let usable_cols := Z.max (term_cols - 2) 0 / CELL_WIDTH in
  let size := Z.min (Z.min usable_rows usable_cols) MAX_BOARD_SIZE in
  Z.max MIN_BOARD_SIZE size.

(** The values of the key map [KEYS]: what the front end can pass as
    [requested_direction], besides [None]. *)
Definition key_directions : list Direction := [UP; DOWN; LEFT; RIGHT].

Definition from_keys (req : option Direction) : Prop :=
  match req with
  | None => True
  | Some d => In d key_directions
  end.

Section Terminal.

Context {R : Type} {rng : SupportsChoice R}.

(** [create_state_for_terminal(stdscr)]; the window is read only through
    [stdscr.getmaxyx()], whose result [(max_y, max_x)] stands for it. *)
Definition create_state_for_terminal (max_y max_x : Z) : M R GameState :=
  let board_size := compute_board_size max_y max_x in
  create_initial_state board_size board_size.

(** The states of a game driven as [_run] drives it: every request is
    [None] or a value of [KEYS]. *)
Inductive playable : GameState -> Prop :=
| playable_init (w h : Z) (r r' : R) (s : GameState) :
    create_initial_state w h r = inr (s, r') -> playable s
| playable_step (s s' : GameState) (req : option Direction) (r r' : R) :
    playable s -> from_keys req ->
    step_state s req r = inr (s', r') -> playable s'.

End Terminal.

(** What the engine maintains about lives, score and food, on top of
    [valid]. *)
Record well_scored (s : GameState) : Prop := mkWellScored {
  scored_max_lives : max_lives s = 3;
  scored_lives : 0 <= lives s <= 3;
  scored_alive : game_over s = false -> 1 <= lives s;
  scored_score : 0 <= score s;
  scored_length : len (snake s) = score s + 3;
  scored_end :
    game_over s = true ->
    lives s = 0 \/ len (snake s) = width s * height s;
  scored_food : on_board (width s) (height s) (food s)
}.

(** ** Facts about points, ranges and board cells *)

Lemma point_eqb_eq (p q : Point) : point_eqb p q = true <-> p = q.
Proof.
  destruct p as [px py], q as [qx qy]; unfold point_eqb; simpl.
  rewrite andb_true_iff, !Z.eqb_eq.
  split; [intros [-> ->]; reflexivity | intros E; inversion E; auto].
Qed.

Lemma point_eqb_refl (p : Point) : point_eqb p p = true.
Proof. apply point_eqb_eq; reflexivity. Qed.

Lemma point_eqb_neq (p q : Point) : point_eqb p q = false <-> p <> q.
Proof.
  rewrite <- point_eqb_eq. destruct (point_eqb p q); intuition congruence.
Qed.

Lemma mem_In (p : Point) (l : list Point) : mem p l = true <-> In p l.
Proof.
  unfold mem. rewrite existsb_exists. split.
  - intros (q & Hq & E). apply point_eqb_eq in E. subst; assumption.
  - intros H. exists p. split; [assumption | apply point_eqb_refl].
Qed.

Lemma mem_not_In (p : Point) (l : list Point) : mem p l = false <-> ~ In p l.
Proof.
  rewrite <- mem_In. destruct (mem p l); intuition congruence.
Qed.

Lemma In_range (n x : Z) : In x (range n) <-> 0 <= x < n.
Proof.
  unfold range. rewrite in_map_iff. split.
  - intros (k & <- & Hk). apply in_seq in Hk. lia.
  - intros Hx. exists (Z.to_nat x). split; [lia | apply in_seq; lia].
Qed.

Lemma NoDup_range (n : Z) : NoDup (range n).
Proof.
  unfold range. apply Finite.Injective_map_NoDup.
  - intros a b E. lia.
  - apply seq_NoDup.
Qed.

Lemma length_range (n : Z) : length (range n) = Z.to_nat n.
Proof. unfold range. rewrite length_map, length_seq. reflexivity. Qed.

Lemma range_nonempty (n : Z) : 1 <= n -> range n <> [].
Proof.
  intros Hn E. apply (f_equal (@length Z)) in E.
  rewrite length_range in E. simpl in E. lia.
Qed.

(** A grid built by pairing an outer range with an inner one has no
    repeated cell and as many cells as the product of the two sizes. *)
Lemma NoDup_grid (f : Z -> Z -> Point) (outer inner : list Z) :
  (forall a b a' b', f a b = f a' b' -> a = a' /\ b = b') ->
  NoDup outer -> NoDup inner ->
  NoDup (flat_map (fun a => map (fun b => f a b) inner) outer).
Proof.
  intros Hinj Ho Hi. induction Ho as [| a outer Ha Ho IH]; simpl.
  - constructor.
  - apply NoDup_app; [ | exact IH | ].
    + apply Finite.Injective_map_NoDup; [ | exact Hi].
      intros b b' E. apply Hinj in E. tauto.
    + intros p Hp Hq. apply in_map_iff in Hp. destruct Hp as (b & <- & _).
      apply in_flat_map in Hq. destruct Hq as (a' & Ha' & Hq).
      apply in_map_iff in Hq. destruct Hq as (b' & E & _).
      apply Hinj in E. destruct E as [-> _]. contradiction.
Qed.

Lemma length_grid (f : Z -> Z -> Point) (outer inner : list Z) :
  length (flat_map (fun a => map (fun b => f a b) inner) outer)
  = (length outer * length inner)%nat.
Proof.
  induction outer as [| a outer IH]; simpl; [reflexivity | ].
  rewrite length_app, length_map, IH. reflexivity.
Qed.

Lemma In_cells_by_row (w h : Z) (p : Point) :
  In p (cells_by_row w h) <-> 0 <= fst p < w /\ 0 <= snd p < h.
Proof.
  unfold cells_by_row. rewrite in_flat_map. split.
  - intros (y & Hy & Hp). apply in_map_iff in Hp. destruct Hp as (x & <- & Hx).
    apply In_range in Hx, Hy. simpl. lia.
  - intros [Hx Hy]. exists (snd p). split; [apply In_range; exact Hy | ].
    apply in_map_iff. exists (fst p). split; [ | apply In_range; exact Hx].
    destruct p; reflexivity.
Qed.

Lemma In_cells_by_column (w h : Z) (p : Point) :
  In p (cells_by_column w h) <-> 0 <= fst p < w /\ 0 <= snd p < h.
Proof.
  unfold cells_by_column. rewrite in_flat_map. split.
  - intros (x & Hx & Hp). apply in_map_iff in Hp. destruct Hp as (y & <- & Hy).
    apply In_range in Hx, Hy. simpl. lia.
  - intros [Hx Hy]. exists (fst p). split; [apply In_range; exact Hx | ].
    apply in_map_iff. exists (snd p). split; [ | apply In_range; exact Hy].
    destruct p; reflexivity.
Qed.

Lemma NoDup_cells_by_row (w h : Z) : NoDup (cells_by_row w h).
Proof.
  unfold cells_by_row.
  apply (NoDup_grid (fun y x => (x, y))); auto using NoDup_range.
  intros a b a' b' E. inversion E. auto.
Qed.

Lemma NoDup_cells_by_column (w h : Z) : NoDup (cells_by_column w h).
Proof.
  unfold cells_by_column.
  apply (NoDup_grid (fun x y => (x, y))); auto using NoDup_range.
  intros a b a' b' E. inversion E. auto.
Qed.

Lemma len_cells_by_row (w h : Z) :
  0 <= w -> 0 <= h -> len (cells_by_row w h) = w * h.
Proof.
  intros Hw Hh. unfold len, cells_by_row.
  rewrite (length_grid (fun y x => (x, y))), !length_range. lia.
Qed.

Lemma len_cells_by_column (w h : Z) :
  0 <= w -> 0 <= h -> len (cells_by_column w h) = w * h.
Proof.
  intros Hw Hh. unfold len, cells_by_column.
  rewrite (length_grid (fun x y => (x, y))), !length_range. lia.
Qed.

Lemma In_free (snake cells : list Point) (p : Point) :
  In p (free snake cells) <-> In p cells /\ ~ In p snake.
Proof.
  unfold free. rewrite filter_In, negb_true_iff, mem_not_In. reflexivity.
Qed.

(** Pigeonhole: a snake shorter than a duplicate-free list of cells
    leaves one of them free. *)
Lemma free_nonempty (snake cells : list Point) :
  NoDup cells -> len snake < len cells -> free snake cells <> [].
Proof.
  intros Hnd Hlt Hempty.
  assert (Hincl : incl cells snake).
  { intros p Hp. destruct (mem p snake) eqn:E; [apply mem_In; exact E | ].
    assert (Hf : In p (free snake cells))
      by (apply In_free; split; [exact Hp | apply mem_not_In; exact E]).
    rewrite Hempty in Hf. contradiction. }
  apply (NoDup_incl_length Hnd) in Hincl. unfold len in Hlt. lia.
Qed.

Lemma free_by_row_nonempty (snake : list Point) (w h : Z) :
  0 <= w -> 0 <= h -> len snake < w * h ->
  free snake (cells_by_row w h) <> [].
Proof.
  intros Hw Hh Hlt. apply free_nonempty; [apply NoDup_cells_by_row | ].
  rewrite len_cells_by_row; assumption.
Qed.

Lemma free_by_column_nonempty (snake : list Point) (w h : Z) :
  0 <= w -> 0 <= h -> len snake < w * h ->
  free snake (cells_by_column w h) <> [].
Proof.
  intros Hw Hh Hlt. apply free_nonempty; [apply NoDup_cells_by_column | ].
  rewrite len_cells_by_column; assumption.
Qed.

Lemma script_choice_returns_member : returns_member script_choice.
Proof.
  intros A seq r Hne. destruct seq as [| d seq']; [congruence | ].
  eexists; eexists; split; [reflexivity | ].
  apply nth_In. apply Nat.mod_upper_bound. simpl. lia.
Defined.

Lemma bind_inr {R A B : Type} (c : M R A) (k : A -> M R B) (r r2 : R) (b : B) :
  bind c k r = inr (b, r2) <->
  exists a r1, c r = inr (a, r1) /\ k a r1 = inr (b, r2).
Proof.
  unfold bind. split.
  - destruct (c r) as [e | [a r1]]; [discriminate | ]. intros H.
    exists a, r1. auto.
  - intros (a & r1 & -> & H). exact H.
Qed.

Lemma bind_step {R A B : Type} (c : M R A) (k : A -> M R B) (r r1 : R) (a : A) :
  c r = inr (a, r1) -> bind c k r = k a r1.
Proof. unfold bind. intros ->. reflexivity. Qed.

Lemma off_board_false (w h : Z) (p : Point) :
  off_board w h p = false <-> on_board w h p.
Proof.
  unfold off_board, on_board.
  destruct (Z.ltb_spec (fst p) 0), (Z.geb_spec (fst p) w),
    (Z.ltb_spec (snd p) 0), (Z.geb_spec (snd p) h); simpl;
    split; solve [discriminate | lia].
Qed.

Lemma try_extend_Some (w h : Z) (snake : list Point) (ds : list Direction)
      (p : Point) :
  try_extend w h snake ds = Some p -> on_board w h p /\ ~ In p snake.
Proof.
  induction ds as [| [dx dy] ds IH]; simpl; [discriminate | ].
  match goal with |- (if ?c then _ else _) = _ -> _ => destruct c eqn:E end.
  - intros H. inversion H; subst p; clear H.
    rewrite !andb_true_iff, negb_true_iff, mem_not_In in E.
    rewrite !Z.leb_le, !Z.ltb_lt in E.
    unfold on_board; simpl. intuition lia.
  - exact IH.
Qed.

Lemma In_removelast (p : Point) (l : list Point) :
  In p (removelast l) -> In p l.
Proof.
  induction l as [| a [| b l] IH]; simpl; [tauto | tauto | ].
  intros [E | H]; [left; exact E | right; apply IH; exact H].
Qed.

Lemma NoDup_removelast (l : list Point) : NoDup l -> NoDup (removelast l).
Proof.
  induction l as [| a [| b l] IH]; intros H; simpl; [constructor .. | ].
  inversion H as [| ? ? Ha Hl]; subst. constructor.
  - intros Hin. apply Ha. apply (In_removelast a (b :: l)). exact Hin.
  - apply IH. exact Hl.
Qed.

Lemma Forall_removelast (P : Point -> Prop) (l : list Point) :
  Forall P l -> Forall P (removelast l).
Proof.
  rewrite !Forall_forall. intros H p Hp. apply H, In_removelast, Hp.
Qed.

Lemma removelast_cons (a : Point) (l : list Point) :
  l <> [] -> removelast (a :: l) = a :: removelast l.
Proof. destruct l; [congruence | reflexivity]. Qed.

Lemma len_removelast_cons (a : Point) (l : list Point) :
  len (removelast (a :: l)) = len l.
Proof.
  unfold len. f_equal. revert a.
  induction l as [| b l IH]; intros a; [reflexivity | ].
  change (removelast (a :: b :: l)) with (a :: removelast (b :: l)).
  cbn [List.length]. rewrite IH. reflexivity.
Qed.

(** ** Properties of the engine *)

Section Properties.

Context {R : Type} {rng : SupportsChoice R}.
Hypothesis Hrng : returns_member rng.

Lemma choice_directions (r : R) :
  exists r', choice [directions] r = inr (directions, r').
Proof.
  destruct (Hrng _ [directions] r) as (x & r' & E & Hin); [discriminate | ].
  destruct Hin as [<- | []]. exists r'. exact E.
Qed.

Lemma spawn_food_returns (snake : list Point) (w h : Z) (r : R) :
  0 <= w -> 0 <= h -> len snake < w * h ->
  exists p r', spawn_food snake w h r = inr (p, r')
               /\ ~ In p snake /\ on_board w h p.
Proof.
  intros Hw Hh Hlt. unfold spawn_food.
  pose proof (free_by_row_nonempty snake w h Hw Hh Hlt) as Hne.
  destruct (free snake (cells_by_row w h)) as [| c cs] eqn:E; [congruence | ].
  destruct (Hrng _ (c :: cs) r Hne) as (p & r' & Ep & Hin).
  exists p, r'. split; [exact Ep | ].
  rewrite <- E in Hin. apply In_free in Hin. destruct Hin as [Hc Hs].
  apply In_cells_by_row in Hc. auto.
Qed.

Lemma spawn_food_inv (snake : list Point) (w h : Z) (r r' : R) (p : Point) :
  spawn_food snake w h r = inr (p, r') -> ~ In p snake /\ on_board w h p.
Proof.
  unfold spawn_food.
  destruct (free snake (cells_by_row w h)) as [| c cs] eqn:E;
    [discriminate | ].
  intros Hp.
  destruct (Hrng _ (c :: cs) r) as (q & r'' & Eq & Hin); [discriminate | ].
  rewrite Eq in Hp. inversion Hp; subst q r''; clear Hp.
  rewrite <- E in Hin. apply In_free in Hin. destruct Hin as [Hc Hs].
  apply In_cells_by_row in Hc. auto.
Qed.

(** The loop of [_respawn_snake] appends one fresh on-board cell per
    iteration as long as the board has room for it. *)
Lemma respawn_loop_spec (w h : Z) (n : nat) :
  0 <= w -> 0 <= h ->
  forall (snake : list Point) (r : R),
    NoDup snake -> Forall (on_board w h) snake ->
    len snake + Z.of_nat n <= w * h ->
    exists snake' r',
      respawn_loop n w h snake r = inr (snake', r')
      /\ NoDup snake' /\ Forall (on_board w h) snake'
      /\ len snake' = len snake + Z.of_nat n
      /\ exists rest, snake' = snake ++ rest.
Proof.
  intros Hw Hh. induction n as [| n IH]; intros snake r Hnd Hon Hlen.
  - exists snake, r. simpl. repeat split; auto; [lia | ].
    exists []. rewrite app_nil_r. reflexivity.
  - assert (Hgrow : forall p r1, on_board w h p -> ~ In p snake ->
              exists snake' r',
                respawn_loop n w h (snake ++ [p]) r1 = inr (snake', r')
                /\ NoDup snake' /\ Forall (on_board w h) snake'
                /\ len snake' = len snake + Z.of_nat (S n)
                /\ exists rest, snake' = snake ++ rest).
    { intros p r1 Hp Hfresh.
      destruct (IH (snake ++ [p]) r1) as (s' & r' & E & Hnd' & Hon' & Hl & rest & Hrest).
      - apply NoDup_app; [exact Hnd | repeat constructor; simpl; tauto | ].
        intros a Ha [<- | []]. contradiction.
      - apply Forall_app. split; [exact Hon | constructor; [exact Hp | constructor]].
      - unfold len in *. rewrite length_app. simpl. lia.
      - exists s', r'. repeat split; auto.
        + rewrite Hl. unfold len. rewrite length_app. simpl. lia.
        + exists ([p] ++ rest). rewrite app_assoc. exact Hrest. }
    destruct (choice_directions r) as (r1 & Ed).
    cbn [respawn_loop]. rewrite (bind_step _ _ _ _ _ Ed).
    destruct (try_extend w h snake directions) as [p | ] eqn:Et.
    + apply try_extend_Some in Et. destruct Et as [Hp Hfresh].
      apply Hgrow; assumption.
    + assert (Hne : free snake (cells_by_column w h) <> [])
        by (apply free_by_column_nonempty; lia).
      destruct (free snake (cells_by_column w h)) as [| c cs] eqn:Ef;
        [congruence | ].
      destruct (Hrng _ (c :: cs) r1 Hne) as (p & r2 & Ep & Hin).
      rewrite (bind_step _ _ _ _ _ Ep).
      rewrite <- Ef in Hin. apply In_free in Hin. destruct Hin as [Hc Hs].
      apply In_cells_by_column in Hc. apply Hgrow; assumption.
Qed.

Lemma respawn_snake_spec (w h length : Z) (r : R) :
  1 <= w -> 1 <= h -> 1 <= length ->
  exists snake' r',
    _respawn_snake w h length r = inr (snake', r')
    /\ NoDup snake' /\ Forall (on_board w h) snake'
    /\ len snake' = Z.min length (w * h).
Proof.
  intros Hw Hh Hl. unfold _respawn_snake.
  destruct (Hrng _ (range w) r (range_nonempty w Hw)) as (x & r1 & Ex & Hx).
  destruct (Hrng _ (range h) r1 (range_nonempty h Hh)) as (y & r2 & Ey & Hy).
  rewrite (bind_step _ _ _ _ _ Ex), (bind_step _ _ _ _ _ Ey).
  apply In_range in Hx, Hy.
  destruct (respawn_loop_spec w h
              (Z.to_nat (Z.min (length - 1) (w * h - 1)))
              ltac:(lia) ltac:(lia) [(x, y)] r2)
    as (s' & r' & E & Hnd & Hon & Hlen & _).
  - repeat constructor. simpl. tauto.
  - repeat constructor; simpl; lia.
  - unfold len. simpl List.length. nia.
  - exists s', r'. repeat split; auto.
    rewrite Hlen. unfold len. simpl List.length. nia.
Qed.

(** *** Collision handling *)

Lemma after_collision_fatal (s : GameState) (r : R) :
  lives s - 1 <= 0 ->
  _after_collision s r
  = inr (mkGameState (width s) (height s) (snake s) (food s) (direction s)
                     (score s) true 0 (max_lives s), r).
Proof.
  intros H. unfold _after_collision.
  destruct (Z.leb_spec (lives s - 1) 0); [reflexivity | lia].
Qed.

Lemma after_collision_respawn (s : GameState) (r : R) :
  0 < lives s - 1 -> 1 <= width s -> 1 <= height s ->
  1 <= len (snake s) < width s * height s ->
  exists next_snake next_food r',
    _after_collision s r
    = inr (mkGameState (width s) (height s) next_snake next_food
                       (_direction_from_snake next_snake) (score s)
                       false (lives s - 1) (max_lives s), r')
    /\ NoDup next_snake
    /\ Forall (on_board (width s) (height s)) next_snake
    /\ len next_snake = len (snake s)
    /\ ~ In next_food next_snake
    /\ on_board (width s) (height s) next_food.
Proof.
  intros Hl Hw Hh Hlen. unfold _after_collision.
  destruct (Z.leb_spec (lives s - 1) 0); [lia | ].
  destruct (respawn_snake_spec (width s) (height s) (len (snake s)) r)
    as (sn & r1 & Es & Hnd & Hon & Hsl); try lia.
  rewrite Z.min_l in Hsl by lia.
  destruct (spawn_food_returns sn (width s) (height s) r1)
    as (f & r2 & Ef & Hf & Hfb); try lia.
  exists sn, f, r2.
  rewrite (bind_step _ _ _ _ _ Es), (bind_step _ _ _ _ _ Ef).
  repeat split; auto; apply Hfb.
Qed.

(** *** One tick *)

Lemma step_state_collides (s : GameState) (req : option Direction) (r : R) :
  game_over s = false -> collides s req = true ->
  step_state s req r
  = _after_collision (with_direction s (resolve_direction s req)) r.
Proof.
  unfold collides, step_state. intros ->.
  destruct (snake s) as [| head tl]; [discriminate | ]. cbv zeta.
  destruct (off_board _ _ _); [reflexivity | ]. simpl. intros ->.
  reflexivity.
Qed.

Lemma step_state_advances (s : GameState) (req : option Direction) (r : R)
      (head : Point) (tl : list Point) :
  game_over s = false -> snake s = head :: tl -> collides s req = false ->
  let d := resolve_direction s req in
  let next_head := advance head d in
  step_state s req r
  = if point_eqb next_head (food s) then
      if len (next_head :: snake s) =? width s * height s then
        inr (mkGameState (width s) (height s) (next_head :: snake s)
                         (food s) d (score s + 1) true (lives s)
                         (max_lives s), r)
      else
        (next_food <- spawn_food (next_head :: snake s) (width s)
                                 (height s) ;;
         ret (mkGameState (width s) (height s) (next_head :: snake s)
                          next_food d (score s + 1) false (lives s)
                          (max_lives s))) r
    else
      inr (mkGameState (width s) (height s)
                       (removelast (next_head :: snake s)) (food s) d
                       (score s) false (lives s) (max_lives s), r).
Proof.
  unfold collides, step_state. intros -> Hs. rewrite Hs. cbv zeta.
  intros Hc. apply orb_false_iff in Hc. destruct Hc as [-> ->].
  destruct (point_eqb _ (food s)); [ | reflexivity].
  destruct (_ =? _); reflexivity.
Qed.

Lemma valid_with_direction (s : GameState) (d : Direction) :
  valid s -> valid (with_direction s d).
Proof. intros [? ? ? ? ? ? ?]. constructor; assumption. Qed.

Lemma after_collision_valid (s s' : GameState) (r r' : R) :
  valid s -> game_over s = false ->
  _after_collision s r = inr (s', r') -> valid s'.
Proof.
  intros V Hgo E. destruct (Z.leb_spec (lives s - 1) 0) as [Hl | Hl].
  - rewrite after_collision_fatal in E by exact Hl.
    inversion E; subst s' r'; clear E. destruct V as [? ? ? ? ? Hf ?].
    constructor; simpl; try assumption; [ | discriminate].
    intros Hin. apply Hf in Hin. destruct Hin as [Hin _]. congruence.
  - pose proof (valid_width s V). pose proof (valid_height s V).
    pose proof (valid_room s V Hgo) as Hroom.
    assert (1 <= len (snake s)).
    { pose proof (valid_nonempty s V). unfold len.
      destruct (snake s); [congruence | simpl List.length; lia]. }
    destruct (after_collision_respawn s r)
      as (sn & f & r2 & E2 & Hnd & Hon & Hlen & Hf & _); try lia.
    rewrite E2 in E. inversion E; subst s' r'; clear E.
    constructor; simpl; try assumption.
    + intros ->. unfold len in *. simpl in Hlen. lia.
    + intros Hin. contradiction.
    + intros _. lia.
Qed.

(** Every tick of a well-formed state returns, and the state it returns
    is well formed. *)
Lemma step_state_valid (s s' : GameState) (req : option Direction)
      (r r' : R) :
  valid s -> step_state s req r = inr (s', r') -> valid s'.
Proof.
  intros V E. destruct (game_over s) eqn:Hgo.
  { unfold step_state in E. rewrite Hgo in E.
    inversion E; subst; exact V. }
  destruct (collides s req) eqn:Hc.
  { rewrite step_state_collides in E by assumption.
    apply after_collision_valid in E;
      [exact E | apply valid_with_direction; exact V | exact Hgo]. }
  destruct (snake s) as [| head tl] eqn:Hs;
    [exfalso; apply (valid_nonempty s V); exact Hs | ].
  rewrite (step_state_advances s req r head tl Hgo Hs Hc) in E.
  cbv zeta in E. rewrite Hs in E. unfold collides in Hc. rewrite Hs in Hc. cbv zeta in Hc.
  apply orb_false_iff in Hc. destruct Hc as [Hoff Hmem].
  apply off_board_false in Hoff. unfold body_for_collision in Hmem.
  set (d := resolve_direction s req) in *.
  set (nh := advance head d) in *.
  pose proof (valid_nodup s V) as Hnd. pose proof (valid_on_board s V) as Hon.
  pose proof (valid_room s V Hgo) as Hroom.
  pose proof (valid_width s V) as Hw. pose proof (valid_height s V) as Hh.
  rewrite Hs in Hnd, Hon, Hroom.
  assert (Hnofood : ~ In (food s) (head :: tl)).
  { intros Hin. rewrite <- Hs in Hin. apply (valid_food s V) in Hin.
    destruct Hin as [Hin _]. congruence. }
  destruct (point_eqb nh (food s)) eqn:Hgrow.
  - apply mem_not_In in Hmem. rewrite Hs in Hmem.
    assert (Hnd' : NoDup (nh :: head :: tl)) by (constructor; assumption).
    assert (Hon' : Forall (on_board (width s) (height s)) (nh :: head :: tl))
      by (constructor; assumption).
    destruct (len (nh :: head :: tl) =? width s * height s) eqn:Hfull.
    + inversion E; subst s' r'; clear E. apply Z.eqb_eq in Hfull.
      constructor; simpl; auto; discriminate.
    + apply Z.eqb_neq in Hfull. apply bind_inr in E.
      destruct E as (f & r1 & Ef & E). apply spawn_food_inv in Ef.
      destruct Ef as [Hf _]. unfold ret in E.
      inversion E; subst s' r'; clear E.
      constructor; simpl; auto; [discriminate | contradiction | ].
      intros _. unfold len in *. simpl List.length in *. lia.
  - apply mem_not_In in Hmem. rewrite Hs in Hmem.
    apply point_eqb_neq in Hgrow.
    pose proof (len_removelast_cons nh (head :: tl)) as Hlen.
    rewrite removelast_cons in E, Hlen by discriminate.
    apply NoDup_removelast in Hnd. apply Forall_removelast in Hon.
    assert (Hnofood' : ~ In (food s) (removelast (head :: tl)))
      by (intros Hin; apply In_removelast in Hin; contradiction).
    remember (removelast (head :: tl)) as body eqn:Hbody.
    inversion E; subst s' r'; clear E.
    constructor; cbn [width height snake food game_over]; auto.
    + discriminate.
    + constructor; assumption.
    + intros [Hin | Hin]; [congruence | contradiction].
    + intros _. rewrite Hlen. exact Hroom.
Qed.

Lemma step_state_returns (s : GameState) (req : option Direction) (r : R) :
  valid s -> exists s' r', step_state s req r = inr (s', r').
Proof.
  intros V. destruct (game_over s) eqn:Hgo.
  { exists s, r. unfold step_state. rewrite Hgo. reflexivity. }
  pose proof (valid_room s V Hgo) as Hroom.
  pose proof (valid_width s V) as Hw. pose proof (valid_height s V) as Hh.
  destruct (snake s) as [| head tl] eqn:Hs;
    [exfalso; apply (valid_nonempty s V); exact Hs | ].
  destruct (collides s req) eqn:Hc.
  - rewrite step_state_collides by assumption.
    destruct (Z.leb_spec (lives s - 1) 0) as [Hl | Hl].
    + rewrite after_collision_fatal by exact Hl. eauto.
    + destruct (after_collision_respawn
                  (with_direction s (resolve_direction s req)) r)
        as (sn & f & r2 & E2 & _); simpl; try lia; [ | eauto].
      rewrite Hs. unfold len in *. simpl List.length in *. lia.
  - rewrite (step_state_advances s req r head tl Hgo Hs Hc). cbv zeta.
    destruct (point_eqb _ (food s)); [ | eauto].
    destruct (_ =? _) eqn:Hfull; [eauto | ]. apply Z.eqb_neq in Hfull.
    rewrite Hs in *.
    destruct (spawn_food_returns
                (advance head (resolve_direction s req) :: head :: tl)
                (width s) (height s) r) as (f & r1 & Ef & _); try lia.
    { unfold len in *. simpl List.length in *. lia. }
    rewrite (bind_step _ _ _ _ _ Ef). unfold ret. eauto.
Qed.

(** *** Initial state *)

Lemma initial_snake_facts (w h : Z) :
  4 <= w -> 4 <= h ->
  NoDup (_initial_snake w h)
  /\ Forall (on_board w h) (_initial_snake w h)
  /\ len (_initial_snake w h) = 3.
Proof.
  intros Hw Hh. unfold _initial_snake. cbn [fst snd].
  assert (2 <= w / 2 < w) by (Z.div_mod_to_equations; lia).
  assert (0 <= h / 2 < h) by (Z.div_mod_to_equations; lia).
  split; [ | split; [ | reflexivity]].
  - repeat constructor; simpl; intros Hin;
      repeat match goal with
             | H : _ \/ _ |- _ => destruct H
             | H : (_, _) = (_, _) |- _ => inversion H; clear H
             end; lia || contradiction.
  - repeat (apply Forall_cons || apply Forall_nil);
      unfold on_board; simpl; lia.
Qed.

Lemma create_initial_state_raises (w h : Z) (r : R) :
  w < 4 \/ h < 4 -> create_initial_state w h r = inl InvalidBoardError.
Proof.
  intros H. unfold create_initial_state.
  destruct (Z.ltb_spec w 4), (Z.ltb_spec h 4); simpl; reflexivity || lia.
Qed.

Lemma create_initial_state_returns (w h : Z) (r : R) :
  4 <= w -> 4 <= h ->
  exists f r',
    create_initial_state w h r
    = inr (mkGameState w h (_initial_snake w h) f RIGHT 0 false 3 3, r')
    /\ ~ In f (_initial_snake w h) /\ on_board w h f.
Proof.
  intros Hw Hh. unfold create_initial_state.
  destruct (Z.ltb_spec w 4), (Z.ltb_spec h 4); try lia. simpl.
  destruct (initial_snake_facts w h Hw Hh) as (_ & _ & Hlen).
  destruct (spawn_food_returns (_initial_snake w h) w h r)
    as (f & r' & Ef & Hf & Hb); try nia.
  exists f, r'. rewrite (bind_step _ _ _ _ _ Ef). auto.
Qed.

Lemma create_initial_state_valid (w h : Z) (r r' : R) (s : GameState) :
  create_initial_state w h r = inr (s, r') -> valid s.
Proof.
  intros E. destruct (Z.lt_ge_cases w 4) as [Hw | Hw];
    [rewrite create_initial_state_raises in E by auto; discriminate | ].
  destruct (Z.lt_ge_cases h 4) as [Hh | Hh];
    [rewrite create_initial_state_raises in E by auto; discriminate | ].
  destruct (create_initial_state_returns w h r Hw Hh)
    as (f & r1 & E1 & Hf & _).
  rewrite E1 in E. inversion E; subst s r'; clear E.
  destruct (initial_snake_facts w h Hw Hh) as (Hnd & Hon & Hlen).
  constructor; cbn [width height snake food game_over]; auto.
  - discriminate.
  - contradiction.
  - intros _. nia.
Qed.

Lemma reachable_run (reqs : list (option Direction)) :
  forall (s s' : GameState) (r r' : R),
    reachable s -> run s reqs r = inr (s', r') -> reachable s'.
Proof.
  induction reqs as [| req reqs IH]; intros s s' r r' Hs E; simpl in E.
  - inversion E; subst; exact Hs.
  - apply bind_inr in E. destruct E as (s1 & r1 & E1 & E).
    apply (IH s1 s' r1 r'); [ | exact E].
    apply (reachable_step s s1 req r r1); assumption.
Qed.

Lemma reachable_valid (s : GameState) : reachable s -> valid s.
Proof.
  induction 1 as [w h r r' s E | s s' req r r' _ IH E].
  - apply (create_initial_state_valid w h r r' s E).
  - apply (step_state_valid s s' req r r' IH E).
Qed.

Lemma update_direction_not_reverse (current requested : Direction) :
  current <> (0, 0) ->
  update_direction current requested <> reverse current.
Proof.
  intros Hnz. unfold update_direction, reverse.
  destruct (point_eqb requested (- fst current, - snd current)) eqn:E.
  - destruct current as [cx cy]. simpl. intros H. inversion H.
    apply Hnz. f_equal; lia.
  - apply point_eqb_neq in E. exact E.
Qed.

Lemma resolve_direction_not_reverse (s : GameState)
      (req : option Direction) :
  direction s <> (0, 0) ->
  resolve_direction s req <> reverse (direction s).
Proof.
  intros Hnz. destruct req as [requested | ]; simpl.
  - apply update_direction_not_reverse. exact Hnz.
  - destruct (direction s) as [cx cy]. unfold reverse. simpl.
    intros H. inversion H. apply Hnz. f_equal; lia.
Qed.

(** *** The claims *)


(** C3.  When the head advances onto the food without colliding and the
    grown snake has [width * height] segments, [step_state] returns the
    state with [game_over] set, the score incremented, lives and food
    unchanged; the random source is left untouched, so no food is
    spawned and nothing is raised. *)
Theorem board_filled_win (s : GameState) (req : option Direction) (r : R)
        (head : Point) (tl : list Point) :
  game_over s = false -> snake s = head :: tl ->
  let d := resolve_direction s req in
  let next_head := advance head d in
  collides s req = false ->
  next_head = food s ->
  len (next_head :: snake s) = width s * height s ->
  step_state s req r
  = inr (mkGameState (width s) (height s) (next_head :: snake s) (food s)
                     d (score s + 1) true (lives s) (max_lives s), r).
Proof.
  intros Hgo Hs d next_head Hc Hfood Hfull.
  rewrite (step_state_advances s req r head tl Hgo Hs Hc). cbv zeta.
  fold d. fold next_head. rewrite <- Hfood at 1.
  rewrite point_eqb_refl. apply Z.eqb_eq in Hfull. rewrite Hfull.
  reflexivity.
Qed.

(** C4.  Once [game_over] is set, [step_state] returns its input
    unchanged, for every requested direction (or none) and every random
    source, which it does not consult. *)
Theorem game_over_is_terminal (s : GameState) (req : option Direction)
        (r : R) :
  game_over s = true -> step_state s req r = inr (s, r).
Proof. intros H. unfold step_state. rewrite H. reflexivity. Qed.

(** C5.  With [game_over] unset and the next head on the board, the
    comparison body is the full snake when the next head is the food and
    the snake without its last cell otherwise.  [step_state] hands over
    to [_after_collision] exactly when the next head is in that body;
    otherwise it prepends the head, and drops the tail when not
    growing. *)
Theorem self_collision_check (s : GameState) (req : option Direction)
        (r : R) (head : Point) (tl : list Point) :
  game_over s = false -> snake s = head :: tl ->
  let d := resolve_direction s req in
  let next_head := advance head d in
  off_board (width s) (height s) next_head = false ->
  let grow := point_eqb next_head (food s) in
  let body := if grow then snake s else removelast (snake s) in
  (collides s req = true <-> In next_head body)
  /\ (In next_head body ->
      step_state s req r = _after_collision (with_direction s d) r)
  /\ (~ In next_head body -> grow = false ->
      step_state s req r
      = inr (mkGameState (width s) (height s)
                         (next_head :: removelast (snake s)) (food s) d
                         (score s) false (lives s) (max_lives s), r))
  /\ (~ In next_head body -> grow = true ->
      step_state s req r
      = if len (next_head :: snake s) =? width s * height s then
          inr (mkGameState (width s) (height s) (next_head :: snake s)
                           (food s) d (score s + 1) true (lives s)
                           (max_lives s), r)
        else
          (next_food <- spawn_food (next_head :: snake s) (width s)
                                   (height s) ;;
           ret (mkGameState (width s) (height s) (next_head :: snake s)
                            next_food d (score s + 1) false (lives s)
                            (max_lives s))) r).
Proof.
  intros Hgo Hs d next_head Hoff grow body.
  assert (Hc : collides s req = true <-> In next_head body).
  { unfold collides. rewrite Hs. cbv zeta. fold d. fold next_head.
    rewrite Hoff. simpl orb. unfold body_for_collision. fold grow.
    fold body. apply mem_In. }
  split; [exact Hc | ]. split; [ | split].
  - intros Hin. apply step_state_collides; [exact Hgo | apply Hc, Hin].
  - intros Hout Hgrow.
    assert (Hc' : collides s req = false)
      by (destruct (collides s req); [exfalso; apply Hout, Hc | ]; reflexivity).
    rewrite (step_state_advances s req r head tl Hgo Hs Hc'). cbv zeta.
    fold d. fold next_head. fold grow. rewrite Hgrow, Hs.
    rewrite removelast_cons by discriminate. reflexivity.
  - intros Hout Hgrow.
    assert (Hc' : collides s req = false)
      by (destruct (collides s req); [exfalso; apply Hout, Hc | ]; reflexivity).
    rewrite (step_state_advances s req r head tl Hgo Hs Hc'). cbv zeta.
    fold d. fold next_head. fold grow. rewrite Hgrow. reflexivity.
Qed.

(** C6.  From a reachable state with [game_over] unset, [step_state]
    never raises [BoardFullError]: the snake occupies fewer than
    [width * height] cells, so each [spawn_food] it calls finds a free
    cell, and the tick returns a state. *)
Theorem step_state_never_board_full (s : GameState)
        (req : option Direction) (r : R) :
  reachable s -> game_over s = false ->
  len (snake s) < width s * height s
  /\ step_state s req r <> inl BoardFullError
  /\ exists s' r', step_state s req r = inr (s', r').
Proof.
  intros H Hgo. apply reachable_valid in H.
  destruct (step_state_returns s req r H) as (s' & r' & E).
  split; [apply valid_room; assumption | ].
  split; [rewrite E; discriminate | eauto].
Qed.

(** C7 (as amended).  For a tick from a state with [game_over] unset
    and a non-zero direction: unless the tick is a non-fatal collision,
    the direction returned is the resolved one and is never the exact
    reverse of the input's direction; after a non-fatal collision it is
    the direction derived from the first two segments of the respawned
    snake. *)
Theorem direction_reversed_only_by_respawn (s s' : GameState)
        (req : option Direction) (r r' : R) :
  game_over s = false -> direction s <> (0, 0) ->
  step_state s req r = inr (s', r') ->
  (collides s req = true /\ 0 < lives s - 1 ->
   direction s' = _direction_from_snake (snake s'))
  /\ (~ (collides s req = true /\ 0 < lives s - 1) ->
      direction s' = resolve_direction s req
      /\ direction s' <> reverse (direction s)).
Proof.
  intros Hgo Hnz E.
  pose proof (resolve_direction_not_reverse s req Hnz) as Hrev.
  destruct (collides s req) eqn:Hc.
  - rewrite step_state_collides in E by assumption.
    destruct (Z.leb_spec (lives s - 1) 0) as [Hl | Hl].
    + rewrite after_collision_fatal in E by exact Hl.
      inversion E; subst s' r'; clear E. simpl.
      split; [intros [_ ?]; lia | auto].
    + split; [intros _ | intros Hn; exfalso; apply Hn; auto].
      unfold _after_collision in E.
      change (lives (with_direction s (resolve_direction s req)))
        with (lives s) in E.
      destruct (Z.leb_spec (lives s - 1) 0); [lia | ].
      apply bind_inr in E. destruct E as (sn & r1 & _ & E).
      apply bind_inr in E. destruct E as (f & r2 & _ & E).
      unfold ret in E. inversion E; subst s' r'; reflexivity.
  - split; [intros [? _]; discriminate | intros _].
    unfold collides in Hc.
    destruct (snake s) as [| head tl] eqn:Hs.
    { unfold step_state in E. rewrite Hgo, Hs in E. discriminate. }
    assert (Hc' : collides s req = false)
      by (unfold collides; rewrite Hs; exact Hc).
    rewrite (step_state_advances s req r head tl Hgo Hs Hc') in E.
    cbv zeta in E.
    destruct (point_eqb _ (food s)).
    + destruct (_ =? _).
      * inversion E; subst s' r'; simpl; auto.
      * apply bind_inr in E. destruct E as (f & r1 & _ & E).
        unfold ret in E. inversion E; subst s' r'; simpl; auto.
    + inversion E; subst s' r'; simpl; auto.
Qed.

(** C8 (what the code does).  In the respawn loop the random source is
    asked to choose from the one-element list [[directions]], so a
    source that returns an element of its argument always hands back
    the whole list, and the offsets are tried in the fixed order
    (1,0), (-1,0), (0,1), (0,-1): whenever the cell to the right of the
    last segment is on the board and free, the snake is extended
    there. *)
Theorem respawn_tries_directions_in_fixed_order (w h : Z) (n : nat)
        (snake : list Point) (r : R) :
  (exists r', choice [directions] r = inr (directions, r'))
  /\ (let right := (fst (last snake (0, 0)) + 1, snd (last snake (0, 0))) in
      on_board w h right -> ~ In right snake ->
      exists r',
        respawn_loop (S n) w h snake r
        = respawn_loop n w h (snake ++ [right]) r').
Proof.
  split; [apply choice_directions | ].
  intros right Hon Hfree. destruct (choice_directions r) as (r' & E).
  exists r'. cbn [respawn_loop]. rewrite (bind_step _ _ _ _ _ E).
  unfold directions. cbn [try_extend]. fold right.
  destruct Hon as [[Hx0 Hx1] [Hy0 Hy1]]. rewrite Z.add_0_r.
  replace (fst (last snake (0, 0)) + 1, snd (last snake (0, 0)))
    with right by reflexivity.
  apply mem_not_In in Hfree. rewrite Hfree.
  unfold right in Hx0, Hx1, Hy0, Hy1. simpl in Hx0, Hx1, Hy0, Hy1.
  apply Z.leb_le in Hx0, Hy0. apply Z.ltb_lt in Hx1, Hy1.
  rewrite Hx0, Hx1, Hy0, Hy1. reflexivity.
Qed.

(** C9.  [create_initial_state] raises [InvalidBoardError] if and only
    if [width < 4] or [height < 4]; otherwise it returns the state with
    the three-segment snake [(width/2, height/2)],
    [(width/2 - 1, height/2)], [(width/2 - 2, height/2)], direction
    [RIGHT], score 0, [lives = max_lives = 3] and [game_over] unset, the
    food being off the snake; with the default size the board is
    20 x 20. *)
Theorem create_initial_state_spec (w h : Z) (r : R) :
  (create_initial_state w h r = inl InvalidBoardError <-> w < 4 \/ h < 4)
  /\ (4 <= w -> 4 <= h ->
      exists f r',
        create_initial_state w h r
        = inr (mkGameState w h
                           [(w / 2, h / 2); (w / 2 - 1, h / 2);
                            (w / 2 - 2, h / 2)]
                           f RIGHT 0 false 3 3, r')
        /\ ~ In f [(w / 2, h / 2); (w / 2 - 1, h / 2); (w / 2 - 2, h / 2)])
  /\ (exists f r',
        create_initial_state_default r
        = inr (mkGameState 20 20 [(10, 10); (9, 10); (8, 10)]
                           f RIGHT 0 false 3 3, r')).
Proof.
  split; [ | split].
  - split; [ | apply create_initial_state_raises].
    intros E. destruct (Z.lt_ge_cases w 4) as [Hw | Hw]; [auto | ].
    destruct (Z.lt_ge_cases h 4) as [Hh | Hh]; [auto | ].
    destruct (create_initial_state_returns w h r Hw Hh) as (f & r' & E' & _).
    rewrite E' in E. discriminate.
  - intros Hw Hh.
    destruct (create_initial_state_returns w h r Hw Hh)
      as (f & r' & E & Hf & _).
    exists f, r'. split; [exact E | exact Hf].
  - destruct (create_initial_state_returns 20 20 r) as (f & r' & E & _);
      try lia.
    exists f, r'. exact E.
Qed.

(** C10.  With a random source whose [choice] returns an element of its
    argument and [width], [height], [length] at least 1,
    [_respawn_snake] returns a snake of pairwise distinct points, all
    within [[0,width) x [0,height)], of length exactly
    [min(length, width * height)]: the early exit of the loop is never
    taken. *)
Theorem respawn_snake_distinct_on_board (w h length : Z) (r : R) :
  1 <= w -> 1 <= h -> 1 <= length ->
  exists snake' r',
    _respawn_snake w h length r = inr (snake', r')
    /\ NoDup snake'
    /\ (forall p, In p snake' -> 0 <= fst p < w /\ 0 <= snd p < h)
    /\ len snake' = Z.min length (w * h).
Proof.
  intros Hw Hh Hl.
  destruct (respawn_snake_spec w h length r Hw Hh Hl)
    as (sn & r' & E & Hnd & Hon & Hlen).
  exists sn, r'. repeat split; auto;
    rewrite Forall_forall in Hon; apply Hon; assumption.
Qed.

End Properties.

(** ** The scenarios of [tests/test_logic.py], with the scripted source

    An empty script always picks the first candidate, which is [(0, 0)]
    whenever that cell is free, as [FixedChoice((0, 0))] does for food. *)

Example test_reverse_direction_is_blocked :
  update_direction RIGHT (-1, 0) = RIGHT
  /\ update_direction RIGHT UP = UP
  /\ update_direction RIGHT RIGHT = RIGHT.
Proof. repeat split. Qed.

Example test_growth_and_score :
  step_state (mkGameState 10 10 [(3, 3); (2, 3); (1, 3)] (4, 3) RIGHT
                          0 false 3 3) None ([] : Script)
  = inr (mkGameState 10 10 [(4, 3); (3, 3); (2, 3); (1, 3)] (0, 0) RIGHT
                     1 false 3 3, []).
Proof. reflexivity. Qed.

Example test_last_life_collision_does_not_respawn :
  step_state (mkGameState 5 5 [(4, 2); (3, 2); (2, 2); (1, 2)] (0, 0) RIGHT
                          0 false 1 3) None ([] : Script)
  = inr (mkGameState 5 5 [(4, 2); (3, 2); (2, 2); (1, 2)] (0, 0) RIGHT
                     0 true 0 3, []).
Proof. reflexivity. Qed.

Example test_self_collision_on_last_life_ends_game :
  step_state (mkGameState 8 8 [(3, 3); (3, 4); (4, 4); (4, 3)] (7, 7) DOWN
                          0 false 1 3) None ([] : Script)
  = inr (mkGameState 8 8 [(3, 3); (3, 4); (4, 4); (4, 3)] (7, 7) DOWN
                     0 true 0 3, []).
Proof. reflexivity. Qed.

Lemma start_4x4_reachable : reachable (rng := script_choice) start_4x4.
Proof. apply (reachable_init 4 4 [6%nat] []). reflexivity. Qed.

Lemma almost_won_4x4_reachable :
  reachable (rng := script_choice) almost_won_4x4.
Proof.
  apply (reachable_run winning_requests start_4x4 almost_won_4x4
                       winning_script []).
  - exact start_4x4_reachable.
  - vm_compute. reflexivity.
Qed.

Lemma won_4x4_reachable : reachable (rng := script_choice) won_4x4.
Proof.
  apply (reachable_step almost_won_4x4 won_4x4 (Some LEFT) [] []).
  - exact almost_won_4x4_reachable.
  - reflexivity.
Qed.

Lemma before_wall_4x4_reachable :
  reachable (rng := script_choice) before_wall_4x4.
Proof.
  apply (reachable_step start_4x4_corner_food before_wall_4x4 None [] []).
  - apply (reachable_init 4 4 [] []). reflexivity.
  - reflexivity.
Qed.

(** ** The claims at concrete inputs *)

(** C1 as stated fails at the board-filled win: the state is reachable
    with a well-behaved source, and its food lies under the snake's
    head. *)
Lemma food_on_snake_after_win :
  returns_member script_choice
  /\ reachable (rng := script_choice) won_4x4
  /\ ~ (~ In (food won_4x4) (snake won_4x4) /\ NoDup (snake won_4x4)).
Proof.
  split; [exact script_choice_returns_member | ].
  split; [exact won_4x4_reachable | ].
  intros [H _]. apply H. simpl. auto.
Qed.



Lemma board_filled_win_witness :
  step_state almost_won_4x4 (Some LEFT) ([] : Script) = inr (won_4x4, []).
Proof.
  exact (board_filled_win almost_won_4x4 (Some LEFT) ([] : Script) (1, 3)
           (tl (snake almost_won_4x4))
           eq_refl eq_refl eq_refl eq_refl eq_refl).
Defined.

Lemma game_over_is_terminal_witness :
  step_state won_4x4 (Some UP) ([7; 7]%nat : Script)
  = inr (won_4x4, [7; 7]%nat).
Proof.
  exact (game_over_is_terminal won_4x4 (Some UP) ([7; 7]%nat : Script)
           eq_refl).
Defined.

Lemma self_collision_check_witness :
  step_state loop_8x8 None ([] : Script)
  = _after_collision (with_direction loop_8x8 DOWN) [].
Proof.
  destruct (self_collision_check loop_8x8 None ([] : Script) (3, 3)
              [(3, 4); (4, 4); (4, 3)] eq_refl eq_refl eq_refl)
    as (_ & Hin & _).
  apply Hin. simpl. auto.
Defined.

Lemma step_state_never_board_full_witness :
  len (snake almost_won_4x4) < width almost_won_4x4 * height almost_won_4x4
  /\ step_state almost_won_4x4 (Some UP) ([] : Script) <> inl BoardFullError
  /\ exists s' r',
       step_state almost_won_4x4 (Some UP) ([] : Script) = inr (s', r').
Proof.
  exact (step_state_never_board_full script_choice_returns_member
           almost_won_4x4 (Some UP) [] almost_won_4x4_reachable eq_refl).
Defined.

(** C7 as stated fails on the non-fatal collision: running into the
    right wall while facing RIGHT returns a snake facing LEFT. *)
Lemma direction_reversed_after_wall :
  reachable (rng := script_choice) before_wall_4x4
  /\ game_over before_wall_4x4 = false
  /\ step_state before_wall_4x4 None ([] : Script) = inr (after_wall_4x4, [])
  /\ ~ direction after_wall_4x4 <> reverse (direction before_wall_4x4).
Proof.
  split; [exact before_wall_4x4_reachable | ].
  repeat split. intros H. apply H. reflexivity.
Qed.

Lemma direction_reversed_only_by_respawn_witness :
  (direction before_wall_4x4 = resolve_direction start_4x4_corner_food
                                                 (Some LEFT)
   /\ direction before_wall_4x4 <> reverse (direction start_4x4_corner_food))
  /\ direction after_wall_4x4 = _direction_from_snake (snake after_wall_4x4).
Proof.
  split.
  - apply (direction_reversed_only_by_respawn start_4x4_corner_food
             before_wall_4x4 (Some LEFT) ([] : Script) []);
      [reflexivity | discriminate | reflexivity | ].
    intros [H _]. discriminate H.
  - apply (direction_reversed_only_by_respawn before_wall_4x4
             after_wall_4x4 None ([] : Script) []);
      [reflexivity | discriminate | reflexivity | ].
    split; [reflexivity | simpl; lia].
Defined.

Lemma respawn_tries_directions_in_fixed_order_witness :
  exists r',
    respawn_loop 2 5 5 [(2, 2)] ([7; 9]%nat : Script)
    = respawn_loop 1 5 5 ([(2, 2)] ++ [(3, 2)]) r'.
Proof.
  apply (respawn_tries_directions_in_fixed_order
           script_choice_returns_member 5 5 1 [(2, 2)] [7; 9]%nat).
  - unfold on_board. simpl. lia.
  - simpl. intros [H | []]. discriminate H.
Defined.

Lemma create_initial_state_spec_witness :
  create_initial_state 3 7 ([] : Script) = inl InvalidBoardError
  /\ exists f r',
       create_initial_state 4 4 ([6]%nat : Script)
       = inr (mkGameState 4 4 [(2, 2); (1, 2); (0, 2)] f RIGHT 0 false 3 3, r')
       /\ ~ In f [(2, 2); (1, 2); (0, 2)].
Proof.
  split.
  - apply (proj1 (create_initial_state_spec script_choice_returns_member
                    3 7 [])).
    left. lia.
  - apply (proj1 (proj2 (create_initial_state_spec
                           script_choice_returns_member 4 4 [6%nat])));
      lia.
Defined.

Lemma respawn_snake_distinct_on_board_witness :
  exists snake' r',
    _respawn_snake 5 5 5 ([] : Script) = inr (snake', r')
    /\ NoDup snake'
    /\ (forall p, In p snake' -> 0 <= fst p < 5 /\ 0 <= snd p < 5)
    /\ len snake' = Z.min 5 (5 * 5).
Proof.
  apply (respawn_snake_distinct_on_board script_choice_returns_member
           5 5 5 []); lia.
Defined.

(** ** Board sizing *)

(** The size is always a legal board side; a terminal with fewer than 7
    rows or 14 columns gets the minimum, whatever its size (negative
    sizes included), and one with at least 51 rows and 146 columns gets
    the maximum. *)
Theorem compute_board_size_bounds (term_rows term_cols : Z) :
  MIN_BOARD_SIZE <= compute_board_size term_rows term_cols <= MAX_BOARD_SIZE
  /\ (term_rows < 7 \/ term_cols < 14 ->
      compute_board_size term_rows term_cols = MIN_BOARD_SIZE)
  /\ (51 <= term_rows /\ 146 <= term_cols ->
      compute_board_size term_rows term_cols = MAX_BOARD_SIZE).
Proof.
  unfold compute_board_size, MIN_BOARD_SIZE, MAX_BOARD_SIZE, CELL_WIDTH.
  cbv zeta. repeat split; intros; Z.div_mod_to_equations; lia.
Qed.

(** On a terminal of at least 7 rows and 14 columns the board fits under
    the three rows and beside the two columns of chrome, at three columns
    per cell, and no larger side up to the maximum would fit. *)
Theorem compute_board_size_largest_fit (term_rows term_cols : Z) :
  7 <= term_rows -> 14 <= term_cols ->
  let size := compute_board_size term_rows term_cols in
  size + 3 <= term_rows
  /\ CELL_WIDTH * size + 2 <= term_cols
  /\ forall n, n <= MAX_BOARD_SIZE -> n + 3 <= term_rows ->
               CELL_WIDTH * n + 2 <= term_cols -> n <= size.
Proof.
  unfold compute_board_size, MIN_BOARD_SIZE, MAX_BOARD_SIZE, CELL_WIDTH.
  cbv zeta. intros Hr Hc. repeat split; intros;
    Z.div_mod_to_equations; lia.
Qed.

Lemma compute_board_size_bounds_witness :
  compute_board_size (-3) 500 = MIN_BOARD_SIZE.
Proof.
  apply (proj1 (proj2 (compute_board_size_bounds (-3) 500))). left. lia.
Defined.

Lemma compute_board_size_largest_fit_witness :
  37 + 3 <= 40 /\ CELL_WIDTH * 37 + 2 <= 120
  /\ forall n, n <= MAX_BOARD_SIZE -> n + 3 <= 40 ->
               CELL_WIDTH * n + 2 <= 120 -> n <= 37.
Proof.
  apply (compute_board_size_largest_fit 40 120); lia.
Defined.

(** A larger terminal never gets a smaller board. *)
Theorem compute_board_size_monotone (rows rows' cols cols' : Z) :
  rows <= rows' -> cols <= cols' ->
  compute_board_size rows cols <= compute_board_size rows' cols'.
Proof.
  unfold compute_board_size, MIN_BOARD_SIZE, MAX_BOARD_SIZE, CELL_WIDTH.
  cbv zeta. intros Hr Hc. Z.div_mod_to_equations. lia.
Qed.

Lemma compute_board_size_monotone_witness :
  compute_board_size 20 60 <= compute_board_size 40 120.
Proof.
  apply (compute_board_size_monotone 20 40 60 120); lia.
Defined.

(** The three cases of [tests/test_cli.py]. *)
Example test_compute_board_size :
  compute_board_size 40 120 = 37
  /\ compute_board_size 5 10 = MIN_BOARD_SIZE
  /\ compute_board_size 200 300 = MAX_BOARD_SIZE.
Proof. repeat split. Qed.

(** ** What a tick can return, for any random source *)

Section Ticks.

Context {R : Type} {rng : SupportsChoice R}.

Lemma after_collision_inv (s s' : GameState) (r r' : R) :
  _after_collision s r = inr (s', r') ->
  (lives s - 1 <= 0 /\ r' = r
   /\ s' = mkGameState (width s) (height s) (snake s) (food s) (direction s)
                       (score s) true 0 (max_lives s))
  \/ (0 < lives s - 1
      /\ exists sn r1 f,
          _respawn_snake (width s) (height s) (len (snake s)) r = inr (sn, r1)
          /\ spawn_food sn (width s) (height s) r1 = inr (f, r')
          /\ s' = mkGameState (width s) (height s) sn f
                              (_direction_from_snake sn) (score s) false
                              (lives s - 1) (max_lives s)).
Proof.
  intros E. destruct (Z.leb_spec (lives s - 1) 0) as [Hl | Hl].
  - left. rewrite after_collision_fatal in E by exact Hl.
    inversion E; subst. auto.
  - right. split; [exact Hl | ]. unfold _after_collision in E.
    destruct (Z.leb_spec (lives s - 1) 0); [lia | ].
    apply bind_inr in E. destruct E as (sn & r1 & Es & E).
    apply bind_inr in E. destruct E as (f & r2 & Ef & E).
    unfold ret in E. inversion E; subst. exists sn, r1, f. auto.
Qed.

Lemma step_state_inv (s s' : GameState) (req : option Direction) (r r' : R) :
  step_state s req r = inr (s', r') ->
  let d := resolve_direction s req in
  (game_over s = true /\ s' = s /\ r' = r)
  \/ (game_over s = false /\ collides s req = true
      /\ _after_collision (with_direction s d) r = inr (s', r'))
  \/ (game_over s = false /\ collides s req = false
      /\ exists head tl,
          snake s = head :: tl
          /\ let nh := advance head d in
             (nh <> food s /\ r' = r
              /\ s' = mkGameState (width s) (height s)
                                  (nh :: removelast (snake s)) (food s) d
                                  (score s) false (lives s) (max_lives s))
             \/ (nh = food s /\ len (nh :: snake s) = width s * height s
                 /\ r' = r
                 /\ s' = mkGameState (width s) (height s) (nh :: snake s)
                                     (food s) d (score s + 1) true (lives s)
                                     (max_lives s))
             \/ (nh = food s /\ len (nh :: snake s) <> width s * height s
                 /\ exists f,
                     spawn_food (nh :: snake s) (width s) (height s) r
                     = inr (f, r')
                     /\ s' = mkGameState (width s) (height s) (nh :: snake s)
                                         f d (score s + 1) false (lives s)
                                         (max_lives s))).
Proof.
  intros E d. destruct (game_over s) eqn:Hgo.
  { left. unfold step_state in E. rewrite Hgo in E. inversion E; auto. }
  right. destruct (collides s req) eqn:Hc.
  { left. rewrite step_state_collides in E by assumption. auto. }
  right. repeat split.
  destruct (snake s) as [| head tl] eqn:Hs.
  { unfold step_state in E. rewrite Hgo, Hs in E. discriminate. }
  exists head, tl. split; [reflexivity | ].
  rewrite (step_state_advances s req r head tl Hgo Hs Hc) in E.
  cbv zeta in E. fold d in E. rewrite Hs in E. cbv zeta.
  destruct (point_eqb (advance head d) (food s)) eqn:Hgrow.
  - apply point_eqb_eq in Hgrow. right.
    destruct (len (advance head d :: head :: tl) =? width s * height s)
      eqn:Hfull.
    + left. apply Z.eqb_eq in Hfull. inversion E; subst. auto.
    + right. apply Z.eqb_neq in Hfull. apply bind_inr in E.
      destruct E as (f & r1 & Ef & E). unfold ret in E.
      inversion E; subst. repeat split; auto. exists f. auto.
  - apply point_eqb_neq in Hgrow. left.
    rewrite removelast_cons in E by discriminate.
    inversion E; subst. auto.
Qed.

(** A tick never changes the board's size or [max_lives], moves the score
    by at most one and never down, and, from non-negative lives, takes at
    most one life and never gives one back. *)
Theorem step_state_frame (s s' : GameState) (req : option Direction)
        (r r' : R) :
  step_state s req r = inr (s', r') ->
  width s' = width s /\ height s' = height s /\ max_lives s' = max_lives s
  /\ score s <= score s' <= score s + 1
  /\ (0 <= lives s -> lives s - 1 <= lives s' <= lives s).
Proof.
  intros E. apply step_state_inv in E. cbv zeta in E.
  destruct E as [(_ & -> & _) | [(_ & _ & E) | (_ & _ & head & tl & _ & E)]].
  - repeat split; lia.
  - apply after_collision_inv in E.
    destruct E as [(Hl & _ & ->) | (Hl & sn & r1 & f & _ & _ & ->)];
      simpl in *; repeat split; lia.
  - destruct E as [(_ & _ & ->) | [(_ & _ & _ & ->) | (_ & _ & f & _ & ->)]];
      simpl; repeat split; lia.
Qed.

End Ticks.

Lemma step_state_frame_witness :
  width after_wall_4x4 = width before_wall_4x4
  /\ height after_wall_4x4 = height before_wall_4x4
  /\ max_lives after_wall_4x4 = max_lives before_wall_4x4
  /\ score before_wall_4x4 <= score after_wall_4x4
     <= score before_wall_4x4 + 1
  /\ (0 <= lives before_wall_4x4 ->
      lives before_wall_4x4 - 1 <= lives after_wall_4x4
      <= lives before_wall_4x4).
Proof.
  apply (step_state_frame before_wall_4x4 after_wall_4x4 None
           ([] : Script) []).
  reflexivity.
Defined.

(** ** Lives, score and positions along a game *)

Section Games.

Context {R : Type} {rng : SupportsChoice R}.
Hypothesis Hrng : returns_member rng.

Lemma len_on_board_le (w h : Z) (l : list Point) :
  0 <= w -> 0 <= h -> NoDup l -> Forall (on_board w h) l -> len l <= w * h.
Proof.
  intros Hw Hh Hnd Hon. rewrite <- (len_cells_by_row w h) by assumption.
  unfold len. apply inj_le. apply NoDup_incl_length; [exact Hnd | ].
  intros p Hp. rewrite Forall_forall in Hon. apply In_cells_by_row.
  apply Hon. exact Hp.
Qed.

Lemma step_state_well_scored (s s' : GameState) (req : option Direction)
      (r r' : R) :
  valid s -> well_scored s ->
  step_state s req r = inr (s', r') -> well_scored s'.
Proof.
  intros V W E. apply step_state_inv in E. cbv zeta in E.
  destruct W as [Wm Wl Wa Wsc Wlen Wend Wf].
  destruct E as [(_ & -> & _) | [(Hgo & Hc & E) | (Hgo & _ & head & tl & Hs & E)]].
  - constructor; assumption.
  - specialize (Wa Hgo). apply after_collision_inv in E.
    destruct E as [(Hl & _ & ->) | (Hl & sn & r1 & f & Es & Ef & ->)];
      simpl in *.
    + constructor; simpl; auto; try lia; try discriminate.
    + pose proof (valid_room s V Hgo) as Hroom.
      pose proof (valid_width s V) as Hw. pose proof (valid_height s V) as Hh.
      assert (Hne : 1 <= len (snake s)).
      { pose proof (valid_nonempty s V). unfold len.
        destruct (snake s); [congruence | simpl List.length; lia]. }
      destruct (respawn_snake_spec Hrng (width s) (height s) (len (snake s)) r)
        as (sn' & r1' & Es' & _ & _ & Hlen); try lia.
      rewrite Es in Es'. inversion Es'; subst sn' r1'; clear Es'.
      rewrite Z.min_l in Hlen by lia.
      apply (spawn_food_inv Hrng) in Ef. destruct Ef as [_ Hfb].
      constructor; simpl; auto; try lia; try discriminate.
  - specialize (Wa Hgo).
    destruct E as [(_ & _ & ->) | [(_ & Hfull & _ & ->) | (_ & _ & f & Ef & ->)]].
    + constructor; simpl; auto; try lia; try discriminate.
      rewrite <- Wlen, Hs. rewrite <- (removelast_cons _ (head :: tl))
        by discriminate.
      apply len_removelast_cons.
    + constructor; simpl; auto; try lia; try discriminate.
      unfold len in *. simpl List.length. lia.
    + apply (spawn_food_inv Hrng) in Ef. destruct Ef as [_ Hfb].
      constructor; simpl; auto; try lia; try discriminate.
      unfold len in *. simpl List.length. lia.
Qed.

Lemma reachable_well_scored (s : GameState) : reachable s -> well_scored s.
Proof.
  induction 1 as [w h r r' s E | s s' req r r' Hs IH E].
  - destruct (Z.lt_ge_cases w 4) as [Hw | Hw];
      [rewrite create_initial_state_raises in E by auto; discriminate | ].
    destruct (Z.lt_ge_cases h 4) as [Hh | Hh];
      [rewrite create_initial_state_raises in E by auto; discriminate | ].
    destruct (create_initial_state_returns Hrng w h r Hw Hh)
      as (f & r1 & E1 & _ & Hfb).
    rewrite E1 in E. inversion E; subst s r'; clear E.
    constructor; simpl; auto; try lia; try discriminate.
  - apply (step_state_well_scored s s' req r r');
      [apply (reachable_valid Hrng); exact Hs | exact IH | exact E].
Qed.

(** Every reachable state has three segments more than its score: the
    snake grows only by eating, and a respawn keeps its length.  So the
    score never exceeds the number of cells less three. *)
Theorem reachable_length_score (s : GameState) :
  reachable s ->
  len (snake s) = score s + 3
  /\ 0 <= score s <= width s * height s - 3.
Proof.
  intros H. pose proof (reachable_well_scored s H) as W.
  apply (reachable_valid Hrng) in H.
  pose proof (scored_length s W) as Hlen. pose proof (scored_score s W).
  split; [exact Hlen | ].
  assert (len (snake s) <= width s * height s).
  { apply len_on_board_le;
      [pose proof (valid_width s H); lia | pose proof (valid_height s H); lia
       | apply valid_nodup; exact H | apply valid_on_board; exact H]. }
  unfold len in *. lia.
Qed.

(** In every reachable state [max_lives] is 3 and [lives] is between 0
    and 3; a game still running has a life left, and a game that is over
    either ran out of lives or filled the board. *)
Theorem reachable_lives (s : GameState) :
  reachable s ->
  max_lives s = 3 /\ 0 <= lives s <= 3
  /\ (game_over s = false -> 1 <= lives s)
  /\ (game_over s = true ->
      lives s = 0 \/ len (snake s) = width s * height s).
Proof.
  intros H. apply reachable_well_scored in H.
  destruct H as [Wm Wl Wa _ _ Wend _]. auto.
Qed.

(** In every reachable state the board is at least 4 x 4, the snake is
    not empty and lies on the board, and so does the food. *)
Theorem reachable_on_board (s : GameState) :
  reachable s ->
  4 <= width s /\ 4 <= height s /\ snake s <> []
  /\ (forall p, In p (snake s) -> on_board (width s) (height s) p)
  /\ on_board (width s) (height s) (food s).
Proof.
  intros H. pose proof (reachable_well_scored s H) as W.
  apply (reachable_valid Hrng) in H.
  destruct H as [Hw Hh Hne _ Hon _ _]. rewrite Forall_forall in Hon.
  split; [exact Hw | ]. split; [exact Hh | ]. split; [exact Hne | ].
  split; [exact Hon | apply (scored_food s W)].
Qed.

(** *** Food spawning at the edge *)

Lemma free_nil_iff (snake cells : list Point) :
  free snake cells = [] <-> (forall p, In p cells -> In p snake).
Proof.
  split.
  - intros E p Hp. destruct (mem p snake) eqn:Hm; [apply mem_In; exact Hm | ].
    assert (Hf : In p (free snake cells))
      by (apply In_free; split; [exact Hp | apply mem_not_In; exact Hm]).
    rewrite E in Hf. contradiction.
  - intros H. destruct (free snake cells) as [| c cs] eqn:E; [reflexivity | ].
    assert (Hc : In c (free snake cells)) by (rewrite E; left; reflexivity).
    apply In_free in Hc. destruct Hc as [Hc Hn]. exfalso. apply Hn, H, Hc.
Qed.

(** [spawn_food] raises [BoardFullError] exactly when every cell of the
    board is on the snake, which includes every board with a side of zero
    or less; otherwise it returns a cell of the board that is off the
    snake. *)
Theorem spawn_food_board_full_iff (snake : list Point) (w h : Z) (r : R) :
  (spawn_food snake w h r = inl BoardFullError
   <-> forall p, on_board w h p -> In p snake)
  /\ (w <= 0 \/ h <= 0 -> spawn_food snake w h r = inl BoardFullError)
  /\ ((exists p, on_board w h p /\ ~ In p snake) ->
      exists f r',
        spawn_food snake w h r = inr (f, r')
        /\ on_board w h f /\ ~ In f snake).
Proof.
  assert (Hfull : (forall p, on_board w h p -> In p snake) ->
                  spawn_food snake w h r = inl BoardFullError).
  { intros H. unfold spawn_food.
    replace (free snake (cells_by_row w h)) with (@nil Point); [reflexivity | ].
    symmetry. apply free_nil_iff. intros p Hp. apply H.
    apply In_cells_by_row. exact Hp. }
  assert (Hfree : free snake (cells_by_row w h) <> [] ->
                  exists f r',
                    spawn_food snake w h r = inr (f, r')
                    /\ on_board w h f /\ ~ In f snake).
  { intros Hne. unfold spawn_food.
    destruct (free snake (cells_by_row w h)) as [| c cs] eqn:E;
      [congruence | ].
    destruct (Hrng _ (c :: cs) r Hne) as (f & r' & Ef & Hin).
    exists f, r'. split; [exact Ef | ].
    rewrite <- E in Hin. apply In_free in Hin. destruct Hin as [Hc Hn].
    apply In_cells_by_row in Hc. auto. }
  split; [split; [ | exact Hfull] | split].
  - intros E p Hp.
    destruct (free snake (cells_by_row w h)) as [| c cs] eqn:Ef.
    + apply (proj1 (free_nil_iff snake (cells_by_row w h)) Ef).
      apply In_cells_by_row. exact Hp.
    + destruct Hfree as (f & r' & E' & _); [discriminate | ].
      rewrite E' in E. discriminate.
  - intros Hsmall. apply Hfull. intros p [Hx Hy]. lia.
  - intros (p & Hp & Hn). apply Hfree. intros E.
    apply Hn. apply (proj1 (free_nil_iff snake (cells_by_row w h)) E).
    apply In_cells_by_row. exact Hp.
Qed.

(** A non-fatal collision of a snake with at least [width * height]
    segments (a state no game reaches) respawns a snake that fills the
    board, and the food spawn that follows raises [BoardFullError]. *)
Theorem collision_on_full_board_raises (s : GameState)
        (req : option Direction) (r : R) :
  game_over s = false -> collides s req = true -> 0 < lives s - 1 ->
  1 <= width s -> 1 <= height s -> width s * height s <= len (snake s) ->
  step_state s req r = inl BoardFullError.
Proof.
  intros Hgo Hc Hl Hw Hh Hfull.
  rewrite step_state_collides by assumption. unfold _after_collision.
  change (lives (with_direction s (resolve_direction s req)))
    with (lives s).
  destruct (Z.leb_spec (lives s - 1) 0); [lia | ]. simpl.
  destruct (respawn_snake_spec Hrng (width s) (height s) (len (snake s)) r)
    as (sn & r1 & Es & Hnd & Hon & Hlen); try nia.
  rewrite Z.min_r in Hlen by lia. rewrite (bind_step _ _ _ _ _ Es).
  assert (Hall : forall p, In p (cells_by_row (width s) (height s)) ->
                           In p sn).
  { apply NoDup_length_incl; [exact Hnd | | ].
    - pose proof (len_cells_by_row (width s) (height s)) as Hc'.
      unfold len in *. lia.
    - intros p Hp. rewrite Forall_forall in Hon. apply In_cells_by_row.
      apply Hon. exact Hp. }
  apply free_nil_iff in Hall. unfold bind, spawn_food. rewrite Hall.
  reflexivity.
Qed.

(** *** Where the food can meet the snake *)

Lemma reachable_food_under_head (s : GameState) :
  reachable s -> In (food s) (snake s) -> hd_error (snake s) = Some (food s).
Proof.
  induction 1 as [w h r r' s E | s s' req r r' Hs IH E]; intros Hin.
  - destruct (Z.lt_ge_cases w 4) as [Hw | Hw];
      [rewrite create_initial_state_raises in E by auto; discriminate | ].
    destruct (Z.lt_ge_cases h 4) as [Hh | Hh];
      [rewrite create_initial_state_raises in E by auto; discriminate | ].
    destruct (create_initial_state_returns Hrng w h r Hw Hh)
      as (f & r1 & E1 & Hf & _).
    rewrite E1 in E. inversion E; subst s r'; clear E.
    simpl in Hin. contradiction.
  - pose proof (reachable_valid Hrng s Hs) as V.
    apply step_state_inv in E. cbv zeta in E.
    destruct E as [(_ & -> & _) | [(Hgo & _ & E) | (Hgo & _ & hd & tl & Hsn & E)]].
    + apply IH. exact Hin.
    + apply after_collision_inv in E.
      destruct E as [(_ & _ & ->) | (_ & sn & r1 & f & _ & Ef & ->)];
        simpl in *.
      * apply IH. exact Hin.
      * apply (spawn_food_inv Hrng) in Ef. destruct Ef as [Hf _].
        contradiction.
    + assert (Hoff : ~ In (food s) (snake s)).
      { intros H. apply (valid_food s V) in H. destruct H as [H _].
        congruence. }
      destruct E as [(Hne & _ & ->) | [(He & _ & _ & ->) | (_ & _ & f & Ef & ->)]];
        simpl in *.
      * destruct Hin as [Hin | Hin]; [congruence | ].
        apply In_removelast in Hin. contradiction.
      * rewrite He. reflexivity.
      * apply (spawn_food_inv Hrng) in Ef. destruct Ef as [Hf _].
        contradiction.
Qed.

(** C1 (as amended).  In every state reachable from
    [create_initial_state] by ticks of [step_state], with a random
    source whose [choice] returns an element of its argument, the snake
    has no duplicate points, and the food is not on the snake unless the
    state is a board-filled win: [game_over] is set, the snake's length
    is [width * height], and the food is the cell under the snake's
    head. *)
Theorem reachable_snake_food_invariant (s : GameState) :
  reachable s ->
  NoDup (snake s)
  /\ (In (food s) (snake s) ->
      game_over s = true
      /\ len (snake s) = width s * height s
      /\ hd_error (snake s) = Some (food s)).
Proof.
  intros H. pose proof (reachable_valid Hrng s H) as V.
  split; [apply valid_nodup; exact V | ].
  intros Hin. destruct (valid_food s V Hin) as [Hgo Hlen].
  repeat split; [exact Hgo | exact Hlen | ].
  apply reachable_food_under_head; assumption.
Qed.

End Games.

Lemma reachable_snake_food_invariant_witness :
  NoDup (snake won_4x4)
  /\ (In (food won_4x4) (snake won_4x4) ->
      game_over won_4x4 = true
      /\ len (snake won_4x4) = width won_4x4 * height won_4x4
      /\ hd_error (snake won_4x4) = Some (food won_4x4)).
Proof.
  exact (reachable_snake_food_invariant script_choice_returns_member
           won_4x4 won_4x4_reachable).
Defined.

Lemma spawn_food_board_full_iff_witness :
  spawn_food [(0, 0)] 1 1 ([] : Script) = inl BoardFullError
  /\ spawn_food [(0, 0)] 0 7 ([] : Script) = inl BoardFullError.
Proof.
  split.
  - apply (proj1 (spawn_food_board_full_iff script_choice_returns_member
                    [(0, 0)] 1 1 [])).
    intros [x y] [Hx Hy]. simpl in Hx, Hy. left. f_equal; lia.
  - apply (proj1 (proj2 (spawn_food_board_full_iff
                           script_choice_returns_member [(0, 0)] 0 7 []))).
    left. lia.
Defined.

Lemma collision_on_full_board_raises_witness :
  step_state (mkGameState 1 1 [(0, 0)] (0, 0) RIGHT 0 false 3 3) None
             ([] : Script)
  = inl BoardFullError.
Proof.
  apply (collision_on_full_board_raises script_choice_returns_member);
    try reflexivity; simpl; unfold len; simpl; lia.
Defined.

Lemma reachable_length_score_witness :
  len (snake almost_won_4x4) = score almost_won_4x4 + 3
  /\ 0 <= score almost_won_4x4
     <= width almost_won_4x4 * height almost_won_4x4 - 3.
Proof.
  exact (reachable_length_score script_choice_returns_member
           almost_won_4x4 almost_won_4x4_reachable).
Defined.

Lemma reachable_lives_witness :
  max_lives after_wall_4x4 = 3 /\ 0 <= lives after_wall_4x4 <= 3
  /\ (game_over after_wall_4x4 = false -> 1 <= lives after_wall_4x4)
  /\ (game_over after_wall_4x4 = true ->
      lives after_wall_4x4 = 0
      \/ len (snake after_wall_4x4)
         = width after_wall_4x4 * height after_wall_4x4).
Proof.
  apply (reachable_lives script_choice_returns_member after_wall_4x4).
  apply (reachable_step before_wall_4x4 after_wall_4x4 None [] []).
  - exact before_wall_4x4_reachable.
  - reflexivity.
Defined.

Lemma reachable_on_board_witness :
  4 <= width won_4x4 /\ 4 <= height won_4x4 /\ snake won_4x4 <> []
  /\ (forall p, In p (snake won_4x4) ->
                on_board (width won_4x4) (height won_4x4) p)
  /\ on_board (width won_4x4) (height won_4x4) (food won_4x4).
Proof.
  exact (reachable_on_board script_choice_returns_member won_4x4
           won_4x4_reachable).
Defined.

(** ** Games driven from the terminal *)

Section Play.

Context {R : Type} {rng : SupportsChoice R}.
Hypothesis Hrng : returns_member rng.

Lemma playable_reachable (s : GameState) : playable s -> reachable s.
Proof.
  induction 1 as [w h r r' s E | s s' req r r' _ IH _ E].
  - apply (reachable_init w h r r' s E).
  - apply (reachable_step s s' req r r' IH E).
Qed.

(** Whatever the terminal's size, [create_state_for_terminal] returns a
    fresh game on a square board whose side is [compute_board_size], never
    [InvalidBoardError]. *)
Theorem create_state_for_terminal_returns (max_y max_x : Z) (r : R) :
  let n := compute_board_size max_y max_x in
  exists f r',
    create_state_for_terminal max_y max_x r
    = inr (mkGameState n n (_initial_snake n n) f RIGHT 0 false 3 3, r')
    /\ on_board n n f /\ ~ In f (_initial_snake n n)
    /\ MIN_BOARD_SIZE <= n <= MAX_BOARD_SIZE.
Proof.
  intros n. pose proof (compute_board_size_bounds max_y max_x) as [Hn _].
  fold n in Hn. unfold MIN_BOARD_SIZE in Hn.
  destruct (create_initial_state_returns Hrng n n r)
    as (f & r' & E & Hf & Hb); try lia.
  exists f, r'. unfold create_state_for_terminal. fold n. auto.
Qed.

Lemma resolve_direction_initial (s : GameState) (req : option Direction) :
  direction s = RIGHT -> from_keys req ->
  resolve_direction s req = RIGHT \/ resolve_direction s req = UP
  \/ resolve_direction s req = DOWN.
Proof.
  intros Hd Hk. unfold resolve_direction. rewrite Hd.
  destruct req as [d | ]; [ | auto]. simpl in Hk.
  destruct Hk as [<- | [<- | [<- | [<- | []]]]]; vm_compute; auto.
Qed.

(** The first tick of a fresh game never costs a life, whichever key was
    pressed: the head has a free cell on the board to its right, above
    and below, and a request to go left is filtered. *)
Theorem first_tick_is_safe (w h : Z) (r r1 r2 : R) (s : GameState)
        (req : option Direction) :
  create_initial_state w h r = inr (s, r1) -> from_keys req ->
  collides s req = false
  /\ exists s' r3,
       step_state s req r2 = inr (s', r3)
       /\ lives s' = 3 /\ game_over s' = false.
Proof.
  intros E Hk.
  destruct (Z.lt_ge_cases w 4) as [Hw | Hw];
    [rewrite create_initial_state_raises in E by auto; discriminate | ].
  destruct (Z.lt_ge_cases h 4) as [Hh | Hh];
    [rewrite create_initial_state_raises in E by auto; discriminate | ].
  destruct (create_initial_state_returns Hrng w h r Hw Hh)
    as (f & r' & E1 & _ & _).
  rewrite E1 in E. inversion E; subst s r1; clear E E1.
  set (s := mkGameState w h (_initial_snake w h) f RIGHT 0 false 3 3).
  assert (Hc : 2 <= w / 2 /\ w / 2 + 1 < w)
    by (Z.div_mod_to_equations; lia).
  assert (Hm : 1 <= h / 2 /\ h / 2 + 1 < h)
    by (Z.div_mod_to_equations; lia).
  assert (Hcol : collides s req = false).
  { unfold collides.
    change (snake s)
      with [(w / 2, h / 2); (w / 2 - 1, h / 2); (w / 2 - 2, h / 2)].
    cbv beta iota zeta. apply orb_false_iff. split.
    - apply off_board_false.
      destruct (resolve_direction_initial s req eq_refl Hk)
        as [Hd | [Hd | Hd]]; rewrite Hd; unfold on_board; simpl; lia.
    - apply mem_not_In. intros Hin.
      assert (Hin' : In (advance (w / 2, h / 2) (resolve_direction s req))
                        (snake s)).
      { unfold body_for_collision in Hin.
        destruct (point_eqb _ (food s)); [exact Hin | ].
        apply In_removelast. exact Hin. }
      clear Hin.
      destruct (resolve_direction_initial s req eq_refl Hk)
        as [Hd | [Hd | Hd]]; rewrite Hd in Hin';
        unfold advance, RIGHT, UP, DOWN in Hin'; simpl in Hin';
        repeat match goal with
               | H : _ \/ _ |- _ => destruct H
               | H : (_, _) = (_, _) |- _ => inversion H; clear H
               end; lia || contradiction. }
  split; [exact Hcol | ].
  rewrite (step_state_advances s req r2 (w / 2, h / 2)
             [(w / 2 - 1, h / 2); (w / 2 - 2, h / 2)] eq_refl eq_refl Hcol).
  cbv zeta. destruct (point_eqb _ (food s)); [ | eauto].
  destruct (_ =? _) eqn:Hfull.
  { apply Z.eqb_eq in Hfull. unfold len in Hfull. simpl in Hfull. nia. }
  destruct (spawn_food_returns Hrng
              (advance (w / 2, h / 2) (resolve_direction s req) :: snake s)
              (width s) (height s) r2) as (f' & r3 & Ef & _);
    try (simpl; lia).
  { unfold len. simpl. nia. }
  rewrite (bind_step _ _ _ _ _ Ef). unfold ret. eauto.
Qed.

(** *** The snake after a respawn *)




(** *** The direction along a game played with the arrow keys *)

Lemma direction_from_snake_nonzero (snake : list Point) :
  NoDup snake -> _direction_from_snake snake <> (0, 0).
Proof.
  intros Hnd. destruct snake as [| p0 [| p1 tl]]; try discriminate.
  simpl. intros E. inversion E. inversion Hnd as [| ? ? Hin _]; subst.
  apply Hin. left. destruct p0, p1. simpl in *. f_equal; lia.
Qed.

Lemma resolve_direction_nonzero (s : GameState) (req : option Direction) :
  direction s <> (0, 0) -> from_keys req ->
  resolve_direction s req <> (0, 0).
Proof.
  intros Hd Hk. destruct req as [d | ]; simpl; [ | exact Hd].
  unfold update_direction. destruct (point_eqb _ _); [exact Hd | ].
  simpl in Hk. destruct Hk as [<- | [<- | [<- | [<- | []]]]]; discriminate.
Qed.

(** In a game played with the arrow keys the direction is never the zero
    vector: the head moves on every tick, and the reversal filter always
    has a well-defined reverse to compare with. *)
Theorem playable_direction_nonzero (s : GameState) :
  playable s -> direction s <> (0, 0).
Proof.
  induction 1 as [w h r r' s E | s s' req r r' Hs IH Hk E].
  - destruct (Z.lt_ge_cases w 4) as [Hw | Hw];
      [rewrite create_initial_state_raises in E by auto; discriminate | ].
    destruct (Z.lt_ge_cases h 4) as [Hh | Hh];
      [rewrite create_initial_state_raises in E by auto; discriminate | ].
    destruct (create_initial_state_returns Hrng w h r Hw Hh)
      as (f & r1 & E1 & _).
    rewrite E1 in E. inversion E; subst. discriminate.
  - pose proof (resolve_direction_nonzero s req IH Hk) as Hd.
    assert (Hnd : NoDup (snake s')).
    { apply valid_nodup. apply (reachable_valid Hrng).
      apply (reachable_step s s' req r r');
        [apply playable_reachable; exact Hs | exact E]. }
    apply step_state_inv in E. cbv zeta in E.
    destruct E as [(_ & -> & _) | [(_ & _ & E) | (_ & _ & hd & tl & _ & E)]].
    + exact IH.
    + apply after_collision_inv in E.
      destruct E as [(_ & _ & ->) | (_ & sn & r1 & f & _ & _ & ->)]; simpl.
      * exact Hd.
      * apply direction_from_snake_nonzero. exact Hnd.
    + destruct E as [(_ & _ & ->) | [(_ & _ & _ & ->) | (_ & _ & f & _ & ->)]];
        exact Hd.
Qed.

End Play.

Lemma create_state_for_terminal_returns_witness :
  exists f r',
    create_state_for_terminal 40 120 ([] : Script)
    = inr (mkGameState 37 37 (_initial_snake 37 37) f RIGHT 0 false 3 3, r')
    /\ on_board 37 37 f /\ ~ In f (_initial_snake 37 37)
    /\ MIN_BOARD_SIZE <= 37 <= MAX_BOARD_SIZE.
Proof.
  exact (create_state_for_terminal_returns script_choice_returns_member
           40 120 []).
Defined.

Lemma first_tick_is_safe_witness :
  collides start_4x4 (Some LEFT) = false
  /\ exists s' r3,
       step_state start_4x4 (Some LEFT) ([] : Script) = inr (s', r3)
       /\ lives s' = 3 /\ game_over s' = false.
Proof.
  apply (first_tick_is_safe script_choice_returns_member 4 4
           [6%nat] [] [] start_4x4 (Some LEFT)).
  - reflexivity.
  - simpl. auto.
Defined.


Lemma playable_direction_nonzero_witness :
  direction after_wall_4x4 <> (0, 0).
Proof.
  apply (playable_direction_nonzero script_choice_returns_member).
  apply (playable_step before_wall_4x4 after_wall_4x4 None [] []);
    [ | exact I | reflexivity].
  apply (playable_step start_4x4_corner_food before_wall_4x4 None [] []);
    [ | exact I | reflexivity].
  apply (playable_init 4 4 [] []). reflexivity.
Defined.

(** ** Facing, exceptions and respawn at the edges *)

Section Edges.

Context {R : Type} {rng : SupportsChoice R}.
Hypothesis Hrng : returns_member rng.

Lemma direction_after_advance (head : Point) (d : Direction)
      (rest : list Point) :
  _direction_from_snake (advance head d :: head :: rest) = d.
Proof.
  destruct head as [hx hy], d as [dx dy]. unfold advance. simpl.
  f_equal; lia.
Qed.

(** While a game runs, the direction of every reachable state is the one
    its body shows: head minus second segment.  (Only the frozen state of
    a fatal collision can record a direction the body does not show.) *)
Theorem reachable_faces_away_from_neck (s : GameState) :
  reachable s -> game_over s = false ->
  direction s = _direction_from_snake (snake s).
Proof.
  induction 1 as [w h r r' s E | s s' req r r' Hs IH E]; intros Hgo'.
  - destruct (Z.lt_ge_cases w 4) as [Hw | Hw];
      [rewrite create_initial_state_raises in E by auto; discriminate | ].
    destruct (Z.lt_ge_cases h 4) as [Hh | Hh];
      [rewrite create_initial_state_raises in E by auto; discriminate | ].
    destruct (create_initial_state_returns Hrng w h r Hw Hh)
      as (f & r1 & E1 & _).
    rewrite E1 in E. inversion E; subst. unfold RIGHT. simpl.
    f_equal; lia.
  - pose proof (reachable_well_scored Hrng s Hs) as W.
    pose proof (scored_length s W) as Hlen.
    pose proof (scored_score s W) as Hsc.
    apply step_state_inv in E. cbv zeta in E.
    destruct E as [(_ & -> & _) | [(_ & _ & E) | (_ & _ & hd & tl & Hsn & E)]].
    + apply IH. exact Hgo'.
    + apply after_collision_inv in E.
      destruct E as [(_ & _ & ->) | (_ & sn & r1 & f & _ & _ & ->)];
        [discriminate | reflexivity].
    + rewrite Hsn in *.
      destruct tl as [| p1 tl]; [unfold len in Hlen; simpl in Hlen; lia | ].
      destruct E as [(_ & _ & ->) | [(_ & _ & _ & ->) | (_ & _ & f & _ & ->)]];
        cbn [direction snake]; symmetry.
      * change (removelast (hd :: p1 :: tl))
          with (hd :: removelast (p1 :: tl)).
        apply direction_after_advance.
      * apply direction_after_advance.
      * apply direction_after_advance.
Qed.

Lemma spawn_food_raises_only (snake : list Point) (w h : Z) (r : R)
      (e : exn) :
  spawn_food snake w h r = inl e -> e = BoardFullError.
Proof.
  unfold spawn_food. destruct (free snake (cells_by_row w h)) as [| c cs].
  - intros E. inversion E. reflexivity.
  - intros E. destruct (Hrng _ (c :: cs) r) as (x & r' & E' & _);
      [discriminate | ].
    rewrite E' in E. discriminate.
Qed.

(** On a board of positive size, [step_state] raises nothing but
    [IndexError], exactly when the snake is empty and the game not over,
    and [BoardFullError]. *)
Theorem step_state_raises_only (s : GameState) (req : option Direction)
        (r : R) :
  1 <= width s -> 1 <= height s ->
  (game_over s = false -> snake s = [] ->
   step_state s req r = inl IndexError)
  /\ (forall e, step_state s req r = inl e ->
                game_over s = false
                /\ (e = IndexError /\ snake s = []
                    \/ e = BoardFullError /\ snake s <> [])).
Proof.
  intros Hw Hh. split.
  { intros Hgo Hs. unfold step_state. rewrite Hgo, Hs. reflexivity. }
  intros e E. destruct (game_over s) eqn:Hgo.
  { unfold step_state in E. rewrite Hgo in E. discriminate. }
  split; [reflexivity | ].
  destruct (snake s) as [| hd tl] eqn:Hs.
  { left. unfold step_state in E. rewrite Hgo, Hs in E.
    inversion E. auto. }
  right. split; [ | discriminate].
  destruct (collides s req) eqn:Hc.
  - rewrite step_state_collides in E by assumption.
    unfold _after_collision in E.
    destruct (_ <=? 0); [discriminate | ]. simpl in E.
    destruct (respawn_snake_spec Hrng (width s) (height s) (len (snake s)) r)
      as (sn & r1 & Es & _); try lia.
    { rewrite Hs. unfold len. simpl List.length. lia. }
    rewrite (bind_step _ _ _ _ _ Es) in E. unfold bind in E.
    destruct (spawn_food sn (width s) (height s) r1) as [e' | [f r2]] eqn:Ef;
      [ | discriminate].
    inversion E; subst e'. apply (spawn_food_raises_only _ _ _ _ _ Ef).
  - rewrite (step_state_advances s req r hd tl Hgo Hs Hc) in E.
    cbv zeta in E. destruct (point_eqb _ (food s)); [ | discriminate].
    destruct (_ =? _); [discriminate | ]. unfold bind in E.
    match type of E with
    | match ?c with _ => _ end = _ => destruct c as [e' | [f r2]] eqn:Ef
    end; [ | discriminate].
    inversion E; subst e'. apply (spawn_food_raises_only _ _ _ _ _ Ef).
Qed.

(** [_respawn_snake] never returns an empty snake: whatever length is
    asked for, zero and negative lengths included, the snake has
    [max(1, min(length, width * height))] segments. *)
Theorem respawn_snake_never_empty (w h length : Z) (r : R) :
  1 <= w -> 1 <= h ->
  exists sn r',
    _respawn_snake w h length r = inr (sn, r')
    /\ len sn = Z.max 1 (Z.min length (w * h)).
Proof.
  intros Hw Hh. destruct (Z.lt_ge_cases length 1) as [Hl | Hl].
  - unfold _respawn_snake.
    destruct (Hrng _ (range w) r (range_nonempty w Hw)) as (x & r1 & Ex & _).
    destruct (Hrng _ (range h) r1 (range_nonempty h Hh)) as (y & r2 & Ey & _).
    rewrite (bind_step _ _ _ _ _ Ex), (bind_step _ _ _ _ _ Ey).
    replace (Z.to_nat (Z.min (length - 1) (w * h - 1))) with 0%nat by lia.
    exists [(x, y)], r2. split; [reflexivity | ]. unfold len. simpl. nia.
  - destruct (respawn_snake_spec Hrng w h length r Hw Hh Hl)
      as (sn & r' & E & _ & _ & Hlen).
    exists sn, r'. split; [exact E | ]. rewrite Hlen. nia.
Qed.

End Edges.

(** [spawn_food] depends on the snake only through the set of cells it
    occupies: order and repetitions do not matter, for any source. *)
Theorem spawn_food_set_only {R : Type} {rng : SupportsChoice R}
        (snake1 snake2 : list Point) (w h : Z) (r : R) :
  (forall p, In p snake1 <-> In p snake2) ->
  spawn_food snake1 w h r = spawn_food snake2 w h r.
Proof.
  intros H. unfold spawn_food, free.
  replace (filter (fun p => negb (mem p snake1)) (cells_by_row w h))
    with (filter (fun p => negb (mem p snake2)) (cells_by_row w h));
    [reflexivity | ].
  apply filter_ext. intros p. f_equal.
  destruct (mem p snake1) eqn:E1, (mem p snake2) eqn:E2; try reflexivity.
  - apply mem_In, H, mem_In in E1. congruence.
  - apply mem_In, H, mem_In in E2. congruence.
Qed.

Lemma spawn_food_set_only_witness :
  spawn_food [(0, 0); (1, 0)] 2 2 ([1]%nat : Script)
  = spawn_food [(1, 0); (0, 0); (1, 0)] 2 2 ([1]%nat : Script).
Proof.
  apply spawn_food_set_only. intros p. simpl. tauto.
Defined.

Lemma reachable_faces_away_from_neck_witness :
  direction after_wall_4x4 = _direction_from_snake (snake after_wall_4x4).
Proof.
  apply (reachable_faces_away_from_neck script_choice_returns_member);
    [ | reflexivity].
  apply (reachable_step before_wall_4x4 after_wall_4x4 None [] []);
    [exact before_wall_4x4_reachable | reflexivity].
Defined.

Lemma step_state_raises_only_witness :
  step_state (mkGameState 4 4 [] (0, 0) RIGHT 0 false 3 3) (Some UP)
             ([] : Script)
  = inl IndexError.
Proof.
  apply (proj1 (step_state_raises_only script_choice_returns_member
                  (mkGameState 4 4 [] (0, 0) RIGHT 0 false 3 3) (Some UP) []
                  ltac:(simpl; lia) ltac:(simpl; lia)));
    reflexivity.
Defined.

Lemma respawn_snake_never_empty_witness :
  exists sn r',
    _respawn_snake 3 3 (-2) ([] : Script) = inr (sn, r')
    /\ len sn = Z.max 1 (Z.min (-2) (3 * 3)).
Proof.
  apply (respawn_snake_never_empty script_choice_returns_member 3 3 (-2) []);
    lia.
Defined.
